(** * Smart Exam Seating System: the seating core of [script.js]

    A shallow embedding of [generateStudentList], [neighbors],
    [tryArrange] (with its nested [shuffle], [canPlace] and [dfs]),
    [assignRollsToGrid], [readCounts] and the control flow of
    [attemptAndRender], followed by the properties of the specification
    that were checked against them.

    Conventions of the embedding.
    - Row and column numbers, [rows] and [cols] are [nat]; requested counts
      and the attempt counter are [Z] (a count read from a form may be
      negative before it is clamped).  What [parseInt] reads from the form
      is [NaN] or a whole number of either sign, [Num]; [tryArrange] and
      [attemptAndRender] are given a second time for such numbers.
      Numbers are exact: the embedding does not reach the sizes, from 2^53
      on, at which JavaScript numbers are not.
    - A grid is an array of rows, [list (list (option string))]; [None] is
      the JavaScript [null] of an unassigned cell.
    - A counts object is the list of its own properties in [Object.keys]
      order; a JavaScript object never has two properties of one name, so
      well-formed inputs satisfy [NoDup (keys m)].  The code reads a counts
      object only under names taken from [Object.keys] or from the list of
      departments; the object [counters] of [assignRollsToGrid] is read
      under whatever a cell holds, so its prototype chain is modelled.
    - [Math.random] and a [sort] with a random comparator are the two
      services the code draws from the engine; they form the interface
      [RandomSource], over which every definition and theorem is generic.
      The text of a built-in function is the engine's choice as well: it is
      the interface [Engine]. *)

From Stdlib Require Import ZArith QArith Qround String Ascii List Permutation Lia.
From Stdlib Require Import DecimalString DecimalNat.
From stdpp Require Import base list strings gmap.

Local Open Scope list_scope.

(** ** Arrays of arrays *)

(** What reading [g[r][c]] can give: [undefined] outside the array, [null],
    or a category name. *)
Inductive value : Type :=
  | VUndefined
  | VNull
  | VStr (s : string).

(** [v === w] *)
Definition strict_eq (v w : value) : bool :=
  match v, w with
  | VUndefined, VUndefined => true
  | VNull, VNull => true
  | VStr s, VStr t => String.eqb s t
  | _, _ => false
  end.

Definition Grid : Type := list (list (option string)).

(** [g[r][c]], [None] when the index is outside the array. *)
Definition get2 {A : Type} (g : list (list A)) (r c : nat) : option A :=
  match g !! r with
  | Some row => row !! c
  | None => None
  end.

(** [g[r][c] = v] for an index inside the array. *)
Definition set2 {A : Type} (g : list (list A)) (r c : nat) (v : A) : list (list A) :=
  alter (fun row => <[c := v]> row) r g.

Definition read (g : Grid) (r c : nat) : value :=
  match get2 g r c with
  | None => VUndefined
  | Some None => VNull
  | Some (Some d) => VStr d
  end.

(** [Array.from({length:rows},()=>Array(cols).fill(null))] *)
Definition blank {A : Type} (rows cols : nat) : list (list (option A)) :=
  replicate rows (replicate cols None).

(** ** [neighbors] *)

Definition neighbors (r c rows cols : nat) : list (nat * nat) :=
  (if (0 <? r)%nat then [(r - 1, c)] else []) ++
  (if (r <? rows - 1)%nat then [(r + 1, c)] else []) ++
  (if (0 <? c)%nat then [(r, c - 1)] else []) ++
  (if (c <? cols - 1)%nat then [(r, c + 1)] else []).

(** ** Counts objects *)

Definition Counts : Type := list (string * Z).

(** [Object.keys(m)] *)
Definition keys (m : Counts) : list string := m.*1.

(** [m[d]]; [None] is [undefined]. *)
Fixpoint lookup_count (m : Counts) (d : string) : option Z :=
  match m with
  | [] => None
  | (k, v) :: m' => if String.eqb k d then Some v else lookup_count m' d
  end.

(** [m[d] > 0]; [undefined > 0] is false. *)
Definition positive_count (m : Counts) (d : string) : bool :=
  match lookup_count m d with
  | Some v => 0 <? v
  | None => false
  end%Z.

(** [m[d] += delta] on an existing property [d] (its place in the key
    order is kept). *)
Fixpoint add_count (m : Counts) (d : string) (delta : Z) : Counts :=
  match m with
  | [] => []
  | (k, v) :: m' =>
      if String.eqb k d then (k, (v + delta)%Z) :: m'
      else (k, v) :: add_count m' d delta
  end.

(** The requested count of a category, 0 for one the object does not name. *)
Definition requested (m : Counts) (d : string) : Z :=
  default 0%Z (lookup_count m d).

(** The sum of all values, [Object.values(counts).reduce((a,b)=>a+b,0)]. *)
Definition totalCount (m : Counts) : Z :=
  foldl Z.add 0%Z m.*2.

(** The sum of the strictly positive values only. *)
Fixpoint sum_positive (m : Counts) : Z :=
  match m with
  | [] => 0
  | (_, v) :: m' => (if 0 <? v then v else 0) + sum_positive m'
  end%Z.

(** [cand.sort((a,b) => m[b] - m[a])]: a stable sort (ECMAScript 2019) by
    descending count, as a stable insertion sort. *)
Fixpoint insert_desc (m : Counts) (x : string) (l : list string) : list string :=
  match l with
  | [] => [x]
  | y :: l' =>
      if (requested m y <=? requested m x)%Z then x :: y :: l'
      else y :: insert_desc m x l'
  end.

Definition sort_desc (m : Counts) (l : list string) : list string :=
  foldr (insert_desc m) [] l.

(** ** The random source *)

Class RandomSource : Type := {
  Rand : Type;
  (** [Math.random()]: a number in [0,1) and the source after the draw. *)
  random : Rand → Q * Rand;
  random_range : ∀ g, (0 <= (random g).1)%Q ∧ ((random g).1 < 1)%Q;
  (** [a.sort(()=>Math.random()-0.5)]: the order that results from sorting
      with a random comparator is left to the engine; it is some
      rearrangement of [a], and it consumes draws. *)
  sort_random : list string → Rand → list string * Rand;
  sort_random_perm : ∀ l g, (sort_random l g).1 ≡ₚ l;
}.

(** The double [0.3] is exactly 5404319552844595 / 2^54. *)
Definition threshold : Q := 5404319552844595 # 18014398509481984.

Definition Qltb (x y : Q) : bool := negb (Qle_bool y x).

(** The whole cell list, [for r for c cells.push([r,c])]. *)
Definition all_cells (rows cols : nat) : list (nat * nat) :=
  seq 0 rows ≫= (fun r => pair r <$> seq 0 cols).

(** ** [tryArrange] *)

Section Solver.
Context {RS : RandomSource}.

(** [[a[i],a[j]] = [a[j],a[i]]] *)
Definition swap (a : list string) (i j : nat) : list string :=
  match a !! i, a !! j with
  | Some x, Some y => <[j := x]> (<[i := y]> a)
  | _, _ => a
  end.

(** The body of [shuffle], for [i] down to 1. *)
Fixpoint shuffle_from (i : nat) (a : list string) (g : Rand) : list string * Rand :=
  match i with
  | O => (a, g)
  | S i' =>
      let (u, g') := random g in
      let j := Z.to_nat (Qfloor (u * inject_Z (Z.of_nat (i' + 2)))) in
      shuffle_from i' (swap a i j) g'
  end.

Definition shuffle (a : list string) (g : Rand) : list string * Rand :=
  shuffle_from (length a - 1) a g.

(** The variables captured by the closures [canPlace] and [dfs]. *)
Record State : Type := mkState {
  grid : Grid;
  countsLeft : Counts;
  attempts : Z;
  rng : Rand;
}.

Variables (rows cols : nat) (attemptLimit : Z).

Definition canPlace (g : Grid) (r c : nat) (dept : string) : bool :=
  forallb (fun n => negb (strict_eq (read g n.1 n.2) (VStr dept)))
          (neighbors r c rows cols).

(** Lines 76-84 of [dfs]: the candidates in the order they are tried. *)
Definition candidates (m : Counts) (g : Rand) : list string * Rand :=
  let cand := sort_desc m (List.filter (positive_count m) (keys m)) in
  if (1 <? length cand)%nat then
    let (u, g') := random g in
    if Qltb u threshold then sort_random cand g' else (cand, g')
  else (cand, g).

(** [grid[r][c] = d; countsLeft[d]--] *)
Definition place (st : State) (r c : nat) (d : string) : State :=
  mkState (set2 (grid st) r c (Some d)) (add_count (countsLeft st) d (-1))
          (attempts st) (rng st).

(** [grid[r][c] = null; countsLeft[d]++] *)
Definition unplace (st : State) (r c : nat) (d : string) : State :=
  mkState (set2 (grid st) r c None) (add_count (countsLeft st) d 1)
          (attempts st) (rng st).

(** The loop [for(const d of cand)] of [dfs] at cell [(r,c)]; [next] is
    the call [dfs(idx+1)]. *)
Fixpoint try_each (next : State → bool * State) (r c : nat)
    (cand : list string) (st : State) : bool * State :=
  match cand with
  | [] => (false, st)
  | d :: cand' =>
      if canPlace (grid st) r c d then
        let (ok, st') := next (place st r c d) in
        if ok then (true, st')
        else try_each next r c cand' (unplace st' r c d)
      else try_each next r c cand' st
  end.

(** [dfs(idx)], on the cells from [idx] on: [rest] is [cells.slice(idx)],
    so [idx === cells.length] reads [rest = []] and [cells[idx]] is the
    head of [rest]. *)
Fixpoint dfs (rest : list (nat * nat)) (st : State) : bool * State :=
  let st := mkState (grid st) (countsLeft st) (attempts st + 1) (rng st) in
  if (attemptLimit <? attempts st)%Z then (false, st)
  else
    match rest with
    | [] => (true, st)
    | (r, c) :: rest' =>
        let (cand, g) := candidates (countsLeft st) (rng st) in
        try_each (dfs rest') r c cand
                 (mkState (grid st) (countsLeft st) (attempts st) g)
    end.

(** The same recursion as it is written, on the index [idx] into [cells];
    [fuel] bounds the depth of the recursion.  [None] stands for a run that
    is not over when the fuel is spent, or that reads [cells[idx]] outside
    the array (the destructuring would throw). *)
Fixpoint try_each_at (next : State → option (bool * State)) (r c : nat)
    (cand : list string) (st : State) : option (bool * State) :=
  match cand with
  | [] => Some (false, st)
  | d :: cand' =>
      if canPlace (grid st) r c d then
        match next (place st r c d) with
        | None => None
        | Some (true, st') => Some (true, st')
        | Some (false, st') => try_each_at next r c cand' (unplace st' r c d)
        end
      else try_each_at next r c cand' st
  end.

Fixpoint dfs_at (cells : list (nat * nat)) (fuel idx : nat) (st : State)
    : option (bool * State) :=
  match fuel with
  | O => None
  | S fuel' =>
      let st := mkState (grid st) (countsLeft st) (attempts st + 1) (rng st) in
      if (attemptLimit <? attempts st)%Z then Some (false, st)
      else if (idx =? length cells)%nat then Some (true, st)
      else
        match cells !! idx with
        | None => None
        | Some (r, c) =>
            let (cand, g) := candidates (countsLeft st) (rng st) in
            try_each_at (dfs_at cells fuel' (idx + 1)) r c cand
                        (mkState (grid st) (countsLeft st) (attempts st) g)
        end
  end.

(** Lines 35-40: one entry per unit of count, positive counts only. *)
Definition make_pool (countsMap : Counts) : list string :=
  List.filter (positive_count countsMap) (keys countsMap)
    ≫= (fun d => replicate (Z.to_nat (requested countsMap d)) d).

(** How a call of [tryArrange] ends: at the [return null] of line 42,
    before anything else was done (the random source is handed back as it
    was received), or after [dfs(0)] returned, with the variables of the
    closure as [dfs] left them. *)
Inductive Run : Type :=
  | EarlyReturn (g : Rand)
  | Finished (ok : bool) (st : State).

Definition tryArrange_run (countsMap : Counts) (g : Rand) : Run :=
  let total := rows * cols in
  let pool := make_pool countsMap in
  if negb (length pool =? total)%nat then EarlyReturn g
  else
    let (_, g1) := shuffle pool g in
    let (ok, st) := dfs (all_cells rows cols)
                        (mkState (blank rows cols) countsMap 0 g1) in
    Finished ok st.

(** The value [tryArrange] returns: the grid, or [null]. *)
Definition returned (run : Run) : option Grid :=
  match run with
  | Finished true st => Some (grid st)
  | _ => None
  end.

Definition rng_after (run : Run) : Rand :=
  match run with
  | EarlyReturn g => g
  | Finished _ st => rng st
  end.

(** The value of [attempts] when the call ends (it is initialised only
    after line 42; 0 stands for "never incremented"). *)
Definition attempts_made (run : Run) : Z :=
  match run with
  | EarlyReturn _ => 0
  | Finished _ st => attempts st
  end.

Definition tryArrange (countsMap : Counts) (g : Rand) : option Grid :=
  returned (tryArrange_run countsMap g).

End Solver.

(** The default value of the parameter [attemptLimit]. *)
Definition default_attemptLimit : Z := 20000.

(** ** [assignRollsToGrid] *)

Record Seat : Type := mkSeat { dept : value; roll : string }.

(** A call either returns or throws (here: a [TypeError]). *)
Inductive Completion (A : Type) : Type :=
  | Returned (a : A)
  | Threw.
Arguments Returned {A} a.
Arguments Threw {A}.

(** [String(v)], also the property name [v] is coerced to. *)
Definition to_key (v : value) : string :=
  match v with
  | VUndefined => "undefined"
  | VNull => "null"
  | VStr s => s
  end.

(** [String(n)] for a natural number. *)
Definition string_of_nat (n : nat) : string :=
  NilEmpty.string_of_uint (Nat.to_uint n).

(** [s.padStart(n, fill)] for a one-character [fill]. *)
Definition padStart (n : nat) (fill : ascii) (s : string) : string :=
  string_of_list_ascii (replicate (n - String.length s) fill) +:+ s.

(** [`${d}-${String(n).padStart(3,'0')}`] *)
Definition make_roll (d : value) (n : nat) : string :=
  to_key d +:+ "-" +:+ padStart 3 "0"%char (string_of_nat n).

Definition SeatGrid : Type := list (list (option Seat)).

(** [counters] is created as [{}], a plain object: a name it has no
    property of its own for is looked up in [Object.prototype].  Eleven of
    the names found there are functions, and writable. *)
Definition prototype_functions : list string :=
  ["constructor"; "__defineGetter__"; "__defineSetter__"; "hasOwnProperty";
   "__lookupGetter__"; "__lookupSetter__"; "isPrototypeOf";
   "propertyIsEnumerable"; "toString"; "valueOf"; "toLocaleString"].

Definition is_prototype_function (k : string) : bool :=
  existsb (String.eqb k) prototype_functions.

(** The twelfth, [__proto__], is an accessor: reading it gives
    [Object.prototype] itself, and writing a number or a string to it does
    nothing. *)
Definition inherited (k : string) : bool :=
  String.eqb k "__proto__" || is_prototype_function k.

(** [String(f)] for a built-in function [f], here the one found under the
    name [k], is left to the engine by the language. *)
Class Engine : Type := {
  native_text : string → string;
}.

(** What [counters] holds under a name of its own: a number or, once
    [+ 1] has been applied to a function, a string. *)
Inductive Counter : Type :=
  | CNum (n : nat)
  | CStr (s : string).

(** What [counters[k]] gives. *)
Inductive Found : Type :=
  | FUndefined
  | FOwn (v : Counter)
  | FFunction (k : string)
  | FPrototype.

Section Labelling.
Context {EN : Engine}.

Definition get_counter (counters : gmap string Counter) (k : string) : Found :=
  match counters !! k with
  | Some v => FOwn v
  | None =>
      if String.eqb k "__proto__" then FPrototype
      else if is_prototype_function k then FFunction k
      else FUndefined
  end.

(** [(x || 0) + 1]: [undefined], [0] and the empty string count as 0; a
    string, a function or an object is turned into text and ["1"] is
    appended. *)
Definition plus_one (x : Found) : Counter :=
  match x with
  | FUndefined => CNum 1
  | FOwn (CNum n) => CNum (n + 1)
  | FOwn (CStr s) => if String.eqb s "" then CNum 1 else CStr (s +:+ "1")
  | FFunction k => CStr (native_text k +:+ "1")
  | FPrototype => CStr "[object Object]1"
  end.

(** [counters[k] = v] for a number or a string [v]. *)
Definition put_counter (counters : gmap string Counter) (k : string)
    (v : Counter) : gmap string Counter :=
  if String.eqb k "__proto__" then counters else <[k := v]> counters.

(** [String(x)] *)
Definition text_of (x : Found) : string :=
  match x with
  | FUndefined => "undefined"
  | FOwn (CNum n) => string_of_nat n
  | FOwn (CStr s) => s
  | FFunction k => native_text k
  | FPrototype => "[object Object]"
  end.

(** The body of the inner loop, lines 112-115, on the pair of [counters]
    and [result]. *)
Definition label_cell (grid : Grid) (r c : nat)
    (acc : gmap string Counter * SeatGrid) : gmap string Counter * SeatGrid :=
  let d := read grid r c in
  let counters :=
    put_counter acc.1 (to_key d) (plus_one (get_counter acc.1 (to_key d))) in
  let roll :=
    to_key d +:+ "-" +:+
    padStart 3 "0"%char (text_of (get_counter counters (to_key d))) in
  (counters, set2 acc.2 r c (Some (mkSeat d roll))).

Definition label_row (grid : Grid) (cols r : nat)
    (acc : gmap string Counter * SeatGrid) : gmap string Counter * SeatGrid :=
  foldl (fun acc c => label_cell grid r c acc) acc (seq 0 cols).

Definition assignRollsToGrid (grid : Grid) : Completion SeatGrid :=
  match grid with
  | [] => Threw (* [grid[0]] is undefined, reading its [length] throws *)
  | row0 :: _ =>
      let rows := length grid in
      let cols := length row0 in
      Returned (foldl (fun acc r => label_row grid cols r acc)
                      (∅, blank rows cols) (seq 0 rows)).2
  end.

End Labelling.

(** ** [generateStudentList] *)

Definition departments : list string := ["CSE"; "ECE"; "IT"; "MECH"; "CIVIL"].

(** For each department in turn, the students numbered from 1 to
    [counts[dept] || 0] ([requested] gives 0 for a missing count). *)
Definition generateStudentList (counts : Counts) : list Seat :=
  departments ≫= (fun dept =>
    (fun i => mkSeat (VStr dept) (make_roll (VStr dept) i))
      <$> seq 1 (Z.to_nat (requested counts dept))).

(** ** [attemptAndRender], from the point where the form has been read,
    for numbers of rows and columns that are whole and not negative *)

Inductive Shown : Type :=
  | MismatchAlert (total sum : Z)
  | NotPossibleAlert
  | Rendered (seats : SeatGrid)
  | Uncaught.

Section Caller.
Context {RS : RandomSource} {EN : Engine}.

(** [for(let t=0;t<tries && !seating;t++) seating = tryArrange(...)],
    [n] iterations being left. *)
Fixpoint try_several (n : nat) (rows cols : nat) (counts : Counts) (g : Rand)
    : option Grid * Rand :=
  match n with
  | O => (None, g)
  | S n' =>
      let run := tryArrange_run rows cols 30000 counts g in
      match returned run with
      | Some seating => (Some seating, rng_after run)
      | None => try_several n' rows cols counts (rng_after run)
      end
  end.

(** The call of [tryArrange] made by iteration [t] of that loop when the
    earlier ones returned [null]. *)
Fixpoint nth_call (t : nat) (rows cols : nat) (counts : Counts) (g : Rand)
    : Run :=
  match t with
  | O => tryArrange_run rows cols 30000 counts g
  | S t' =>
      nth_call t' rows cols counts
               (rng_after (tryArrange_run rows cols 30000 counts g))
  end.

Definition attemptAndRender (rows cols : nat) (counts : Counts) (g : Rand)
    : Shown * Rand :=
  let total := Z.of_nat (rows * cols) in
  let sum := totalCount counts in
  if negb (sum =? total)%Z then (MismatchAlert total sum, g)
  else
    match try_several 5 rows cols counts g with
    | (None, g') => (NotPossibleAlert, g')
    | (Some seating, g') =>
        match assignRollsToGrid seating with
        | Returned seats => (Rendered seats, g')
        | Threw => (Uncaught, g')
        end
    end.

End Caller.

(** ** [readCounts], and [attemptAndRender] from the fields of the form *)

(** What [parseInt] gives: [NaN] or a whole number, of either sign (a
    field of 309 digits or more, which it reads as [Infinity], is beyond
    the sizes modelled). *)
Inductive Num : Type :=
  | NaN
  | Int (z : Z).

(** [a + b], [a * b], [Math.max(0, a)] *)
Definition num_add (a b : Num) : Num :=
  match a, b with
  | Int x, Int y => Int (x + y)
  | _, _ => NaN
  end.

Definition num_mul (a b : Num) : Num :=
  match a, b with
  | Int x, Int y => Int (x * y)
  | _, _ => NaN
  end.

Definition max_zero (a : Num) : Num :=
  match a with
  | Int x => Int (Z.max 0 x)
  | NaN => NaN
  end.

(** [a !== b]: [NaN] differs from every number, itself included. *)
Definition strict_ne (a b : Num) : bool :=
  match a, b with
  | Int x, Int y => negb (x =? y)%Z
  | _, _ => true
  end.

(** The form as [parseInt] reads it: [parseInt(value, 10)] for the fields
    [rows] and [cols], [parseInt(value || 0, 10)] for the field of each
    department. *)
Record Form : Type := mkForm {
  rows_field : Num;
  cols_field : Num;
  dept_field : string → Num;
}.

(** Lines 174-182: [rows], [cols] and the object [counts], which gets one
    property for each department. *)
Definition readCounts (f : Form) : Num * Num * list (string * Num) :=
  (rows_field f, cols_field f,
   (fun d => (d, max_zero (dept_field f d))) <$> departments).

(** [totalCount] on the counts as read. *)
Definition totalCount_read (counts : list (string * Num)) : Num :=
  foldl num_add (Int 0) counts.*2.

(** The counts as whole numbers, when none of them is [NaN]. *)
Fixpoint whole (counts : list (string * Num)) : option Counts :=
  match counts with
  | [] => Some []
  | (k, Int z) :: rest => (fun m => (k, z) :: m) <$> whole rest
  | (_, NaN) :: _ => None
  end.

Inductive FormShown : Type :=
  | FormMismatch (total sum : Num)
  | FormNotPossible
  | FormRendered (seats : SeatGrid)
  | FormUncaught.

Section FormCaller.
Context {RS : RandomSource} {EN : Engine}.

(** [tryArrange] called with whole numbers of either sign: [total] is
    their product; [Array.from({length:rows}, ...)] makes no row when
    [rows] is negative, and the loops over [r < rows] and [c < cols] run
    as often as for 0.  ([Array(cols)] would throw for a negative [cols],
    but it is evaluated once for each row, and where there is a row and
    [cols] is negative, [total] is negative and line 42 has returned.) *)
Definition tryArrange_run_int (rows cols attemptLimit : Z) (countsMap : Counts)
    (g : Rand) : Run :=
  let total := (rows * cols)%Z in
  let pool := make_pool countsMap in
  if negb (Z.of_nat (length pool) =? total)%Z then EarlyReturn g
  else
    let (_, g1) := shuffle pool g in
    let (ok, st) := dfs (Z.to_nat rows) (Z.to_nat cols) attemptLimit
                        (all_cells (Z.to_nat rows) (Z.to_nat cols))
                        (mkState (blank (Z.to_nat rows) (Z.to_nat cols))
                                 countsMap 0 g1) in
    Finished ok st.

(** [for(let t=0;t<tries && !seating;t++) seating = ...], [n] iterations
    being left, for any call. *)
Fixpoint retry (n : nat) (call : Rand → Run) (g : Rand) : option Grid * Rand :=
  match n with
  | O => (None, g)
  | S n' =>
      match returned (call g) with
      | Some seating => (Some seating, rng_after (call g))
      | None => retry n' call (rng_after (call g))
      end
  end.

(** Lines 188-220.  Past the comparison of line 193 neither [sum] nor
    [total] is [NaN], so [rows], [cols] and every count are whole numbers;
    the last case cannot occur, and is given the alert of line 193. *)
Definition attemptAndRender_form (f : Form) (g : Rand) : FormShown * Rand :=
  let '(rows, cols, counts) := readCounts f in
  let total := num_mul rows cols in
  let sum := totalCount_read counts in
  if strict_ne sum total then (FormMismatch total sum, g)
  else
    match rows, cols, whole counts with
    | Int rows, Int cols, Some counts =>
        match retry 5 (tryArrange_run_int rows cols 30000 counts) g with
        | (None, g') => (FormNotPossible, g')
        | (Some seating, g') =>
            match assignRollsToGrid seating with
            | Returned seats => (FormRendered seats, g')
            | Threw => (FormUncaught, g')
            end
        end
    | _, _, _ => (FormMismatch total sum, g)
    end.

End FormCaller.

(** ** Two concrete random sources *)

(** Every draw is 1/2: the candidate order is never shuffled.  The state
    counts the draws made. *)
#[refine] Instance steady : RandomSource := {
  Rand := nat;
  random g := (1 # 2, S g);
  sort_random l g := (l, S g);
}.
Proof.
  - intros g. split; unfold Qle, Qlt; simpl; lia.
  - intros l g. reflexivity.
Defined.

(** Every draw is 0: the candidate order is always shuffled, and the
    engine's sort reverses it. *)
#[refine] Instance reversing : RandomSource := {
  Rand := nat;
  random g := (0 # 1, S g);
  sort_random l g := (rev l, S g);
}.
Proof.
  - intros g. split; unfold Qle, Qlt; simpl; lia.
  - intros l g. simpl. symmetry. apply Permutation_rev.
Defined.

(** ** An engine *)

(** The text V8 gives for a built-in function; the function found under
    the name [constructor] is [Object]. *)
Instance v8 : Engine := {
  native_text k :=
    "function " +:+ (if String.eqb k "constructor" then "Object" else k)
    +:+ "() { [native code] }";
}.

(** ** Notions the properties are stated with *)

(** A [rows] by [cols] array of arrays. *)
Definition shape {A : Type} (rows cols : nat) (g : list (list A)) : Prop :=
  length g = rows ∧ Forall (fun row => length row = cols) g.

(** Two cells sharing an edge: up, down, left or right. *)
Definition adjacent (p q : nat * nat) : Prop :=
  (p.1 = q.1 ∧ (p.2 = S q.2 ∨ q.2 = S p.2)) ∨
  (p.2 = q.2 ∧ (p.1 = S q.1 ∨ q.1 = S p.1)).

(** The number of cells of a list, and of a grid, that hold category [d]. *)
Definition holds (d : string) (x : option string) : bool :=
  match x with
  | Some s => String.eqb s d
  | None => false
  end.

Definition count_in (d : string) (row : list (option string)) : nat :=
  length (List.filter (holds d) row).

Definition count_grid (d : string) (g : Grid) : nat :=
  sum_list (count_in d <$> g).

Definition indicator (d : string) (x : option string) : nat :=
  if holds d x then 1 else 0.

(** What holds of the grid and of [countsLeft] whenever [dfs] is entered
    with the cells [rest] still to fill: the cells of [rest] are unassigned
    and all the others assigned, no two assigned cells that share an edge
    hold the same category, and [countsLeft] is [countsMap] less what the
    grid holds. *)
Record Inv (rows cols : nat) (countsMap : Counts) (rest : list (nat * nat))
    (g : Grid) (cl : Counts) : Prop := {
  inv_shape : shape rows cols g;
  inv_todo : ∀ r c, (r, c) ∈ rest → get2 g r c = Some None;
  inv_done : ∀ r c, r < rows → c < cols → (r, c) ∉ rest →
             ∃ d, get2 g r c = Some (Some d);
  inv_adj : ∀ p q d, adjacent p q → get2 g p.1 p.2 = Some (Some d) →
            get2 g q.1 q.2 ≠ Some (Some d);
  inv_tally : ∀ d, (requested cl d + Z.of_nat (count_grid d g)
                    = requested countsMap d)%Z;
  inv_floor : ∀ d, (Z.min 0 (requested countsMap d) <= requested cl d)%Z;
  inv_left : (sum_positive cl + Z.of_nat (rows * cols)
              = sum_positive countsMap + Z.of_nat (length rest))%Z;
}.

(** The value and the counter name of a cell. *)
Definition cell_value (x : option string) : value := from_option VStr VNull x.

Definition cell_key (x : option string) : string := to_key (cell_value x).

(** How many cells of [l] are counted under the name [k]. *)
Definition occurrences (k : string) (l : list (option string)) : nat :=
  length (List.filter (fun x => String.eqb (cell_key x) k) l).

(** The seat the specification gives to cell [(r,c)] of a grid with [cols]
    columns: the value of the cell, and a roll made of it and of the number
    of cells counted under the same name among the first [r * cols + c + 1]
    cells in row-major order (the cell itself and those before it). *)
Definition seat_at (g : Grid) (cols r c : nat) : Seat :=
  mkSeat (read g r c)
         (make_roll (read g r c)
            (occurrences (to_key (read g r c)) (take (S (r * cols + c)) (mjoin g)))).

(** What [counters] holds under a name that is not inherited and was
    counted [n] times. *)
Definition held (n : nat) : option Counter :=
  match n with
  | O => None
  | S _ => Some (CNum n)
  end.


Section LabelNotions.
Context {EN : Engine}.

(** The loop invariant of [assignRollsToGrid] on a rectangular grid after
    [i] cells: the names that are not inherited have been counted, the
    cells done are seats that carry what was read, and the seat of a cell
    whose name is not inherited is the one expected. *)
Definition labelled (g : Grid) (rows cols i : nat)
    (acc : gmap string Counter * SeatGrid) : Prop :=
  (∀ k, inherited k = false →
        acc.1 !! k = held (occurrences k (take i (mjoin g)))) ∧
  shape rows cols acc.2 ∧
  ∀ r c, r < rows → c < cols →
    if decide (r * cols + c < i)
    then ∃ s, get2 acc.2 r c = Some (Some s) ∧ dept s = read g r c ∧
              (inherited (to_key (read g r c)) = false →
               s = seat_at g cols r c)
    else get2 acc.2 r c = Some None.





End LabelNotions.

(** Whether a string has a dash in it, and the number a string of digits
    stands for. *)
Fixpoint has_dash (s : string) : bool :=
  match s with
  | EmptyString => false
  | String a s' => Ascii.eqb a "-" || has_dash s'
  end.

Definition decimal_value (s : string) : option nat :=
  Nat.of_uint <$> NilEmpty.uint_of_string s.

(** [g'] keeps every assignment made in [g]. *)
Definition extends (g g' : Grid) : Prop :=
  ∀ r c d, get2 g r c = Some (Some d) → get2 g' r c = Some (Some d).

(** A seating that meets the request: a full [rows] by [cols] grid in which
    cells sharing an edge hold different categories and every category is
    held by as many cells as requested (by none if the request is not
    positive). *)
Record Arrangement (rows cols : nat) (countsMap : Counts) (g : Grid) : Prop := {
  arr_shape : shape rows cols g;
  arr_full : ∀ r c, r < rows → c < cols → ∃ d, get2 g r c = Some (Some d);
  arr_adj : ∀ p q d, adjacent p q → get2 g p.1 p.2 = Some (Some d) →
            get2 g q.1 q.2 ≠ Some (Some d);
  arr_count : ∀ d, Z.of_nat (count_grid d g) = Z.max 0 (requested countsMap d);
}.

Section SearchNotions.
Context {RS : RandomSource}.

(** What a call of [dfs] entered with grid [g] and counts [cl] leaves: on
    success a grid with no cell left to fill, on failure the grid and the
    counts as they were. *)
Definition outcome_ok (rows cols : nat) (countsMap : Counts)
    (g : Grid) (cl : Counts) (res : bool * State) : Prop :=
  match res with
  | (true, st') => Inv rows cols countsMap [] (grid st') (countsLeft st')
  | (false, st') => grid st' = g ∧ countsLeft st' = cl
  end.

(** The state [dfs] works on right after [++attempts]. *)
Definition bumped (st : State) : State :=
  mkState (grid st) (countsLeft st) (attempts st + 1) (rng st).

End SearchNotions.

(** ** Arrays of arrays: reading after writing *)

Section Arrays.
Context {A : Type}.
Implicit Types (g : list (list A)) (v : A).

Lemma get2_set2_eq g r c v x :
  get2 g r c = Some x → get2 (set2 g r c v) r c = Some v.
Proof.
  unfold get2, set2. rewrite list_lookup_alter.
  destruct (decide (r = r)) as [_|]; [|done].
  destruct (g !! r) as [row|]; [simpl|done].
  intros Hx. apply list_lookup_insert_eq. by eapply lookup_lt_Some.
Qed.

Lemma get2_set2_ne g r c v r' c' :
  (r, c) ≠ (r', c') → get2 (set2 g r c v) r' c' = get2 g r' c'.
Proof.
  intros Hne. unfold get2, set2. rewrite list_lookup_alter.
  destruct (decide (r = r')) as [->|]; [|done].
  destruct (g !! r') as [row|]; [simpl|done].
  apply list_lookup_insert_ne. congruence.
Qed.

Lemma set2_shape rows cols g r c v :
  shape rows cols g → shape rows cols (set2 g r c v).
Proof.
  intros [Hl Hr]. split.
  - unfold set2. by rewrite length_alter.
  - apply Forall_alter; [done|]. intros row _ <-. apply length_insert.
Qed.

Lemma set2_set2 g r c v w : set2 (set2 g r c v) r c w = set2 g r c w.
Proof.
  unfold set2. rewrite list_alter_alter_eq. apply list_alter_ext; [|done].
  intros row _. simpl. apply list_insert_insert_eq.
Qed.

Lemma set2_same g r c v : get2 g r c = Some v → set2 g r c v = g.
Proof.
  unfold get2, set2. intros H. destruct (g !! r) as [row|] eqn:Hr; [|done].
  transitivity (alter id r g); [|by apply list_alter_id].
  apply list_alter_ext; [|done]. intros row' Hr'.
  assert (row' = row) as -> by congruence. simpl. by apply list_insert_id.
Qed.

Lemma shape_get2 rows cols g r c :
  shape rows cols g → (is_Some (get2 g r c) ↔ r < rows ∧ c < cols).
Proof.
  intros [Hl Hr]. unfold get2. split.
  - destruct (g !! r) as [row|] eqn:E; [|by intros [? ?]].
    intros Hc. split.
    + rewrite <- Hl. by eapply lookup_lt_Some.
    + rewrite <- (Forall_lookup_1 _ _ _ _ Hr E). by apply lookup_lt_is_Some.
  - intros [Hlt Hc]. rewrite <- Hl in Hlt.
    apply lookup_lt_is_Some in Hlt as [row E]. rewrite E.
    apply lookup_lt_is_Some. by rewrite (Forall_lookup_1 _ _ _ _ Hr E).
Qed.

End Arrays.

Lemma blank_shape {A : Type} rows cols : shape rows cols (@blank A rows cols).
Proof.
  split.
  - apply length_replicate.
  - apply Forall_replicate. apply length_replicate.
Qed.

Lemma get2_blank {A : Type} rows cols r c :
  r < rows → c < cols → get2 (@blank A rows cols) r c = Some None.
Proof.
  intros Hr Hc. unfold get2, blank.
  rewrite (lookup_replicate_2 rows _ r Hr). by apply lookup_replicate_2.
Qed.

(** ** The cell list and the neighbours *)

Lemma elem_of_all_cells rows cols r c :
  (r, c) ∈ all_cells rows cols ↔ r < rows ∧ c < cols.
Proof.
  unfold all_cells. rewrite list_elem_of_bind. split.
  - intros (r' & Hin & Hr'). apply list_elem_of_fmap in Hin as (c' & Heq & Hc').
    inversion Heq; subst. rewrite elem_of_seq in Hr', Hc'. lia.
  - intros [Hr Hc]. exists r. split.
    + apply list_elem_of_fmap. exists c. split; [done|]. apply elem_of_seq. lia.
    + apply elem_of_seq. lia.
Qed.

Lemma NoDup_all_cells rows cols : NoDup (all_cells rows cols).
Proof.
  apply NoDup_bind; [| |apply NoDup_seq].
  - intros r1 r2 [r c] _ _ H1 H2.
    apply list_elem_of_fmap in H1 as (? & E1 & _).
    apply list_elem_of_fmap in H2 as (? & E2 & _). congruence.
  - intros r _. apply NoDup_fmap_2; [|apply NoDup_seq].
    intros x y ?. congruence.
Qed.

Lemma length_all_cells rows cols : length (all_cells rows cols) = rows * cols.
Proof.
  unfold all_cells.
  enough (∀ s, length (seq s rows ≫= (fun r => pair r <$> seq 0 cols)) = rows * cols)
    by done.
  induction rows as [|n IH]; intros s; [done|].
  simpl. rewrite length_app, length_fmap, length_seq, IH. done.
Qed.

Lemma elem_of_neighbors r c rows cols r' c' :
  r < rows → c < cols →
  (r', c') ∈ neighbors r c rows cols ↔
  r' < rows ∧ c' < cols ∧ adjacent (r, c) (r', c').
Proof.
  intros Hr Hc. unfold neighbors, adjacent. simpl.
  rewrite !elem_of_app.
  destruct (Nat.ltb_spec 0 r), (Nat.ltb_spec r (rows - 1)),
    (Nat.ltb_spec 0 c), (Nat.ltb_spec c (cols - 1));
    rewrite ?list_elem_of_singleton, ?elem_of_nil;
    (split; [intros H'; repeat destruct H' as [H'|H']; try done;
             inversion H'; subst; lia
            | intros (? & ? & [[? [?|?]]|[? [?|?]]]); subst;
              first [ lia
                    | left; f_equal; lia
                    | right; left; f_equal; lia
                    | right; right; left; f_equal; lia
                    | right; right; right; f_equal; lia ] ]).
Qed.

Lemma strict_eq_true v w : strict_eq v w = true ↔ v = w.
Proof.
  destruct v, w; simpl; try (split; congruence).
  rewrite String.eqb_eq. split; congruence.
Qed.

Lemma read_VStr g r c d : read g r c = VStr d ↔ get2 g r c = Some (Some d).
Proof.
  unfold read. destruct (get2 g r c) as [[s|]|]; split; congruence.
Qed.

Lemma canPlace_true rows cols g r c d :
  canPlace rows cols g r c d = true ↔
  ∀ n, n ∈ neighbors r c rows cols → get2 g n.1 n.2 ≠ Some (Some d).
Proof.
  unfold canPlace. rewrite forallb_forall. split.
  - intros H n Hn Hg. apply list_elem_of_In in Hn. specialize (H n Hn).
    apply negb_true_iff in H. apply read_VStr in Hg.
    apply (proj2 (strict_eq_true _ _)) in Hg. congruence.
  - intros H n Hn. apply list_elem_of_In in Hn. apply negb_true_iff.
    destruct (strict_eq _ _) eqn:E; [|done].
    apply strict_eq_true, read_VStr in E. by apply H in E.
Qed.

(** ** Counts objects: lookups after updates, sums *)

Lemma lookup_add_count_eq m d delta :
  lookup_count (add_count m d delta) d =
  (fun v => (v + delta)%Z) <$> lookup_count m d.
Proof.
  induction m as [|[k v] m IH]; [done|]. simpl.
  destruct (String.eqb k d) eqn:E; simpl; rewrite E; done.
Qed.

Lemma lookup_add_count_ne m d d' delta :
  d ≠ d' → lookup_count (add_count m d delta) d' = lookup_count m d'.
Proof.
  intros Hne. induction m as [|[k v] m IH]; [done|]. simpl.
  destruct (String.eqb k d) eqn:E; simpl.
  - apply String.eqb_eq in E as ->.
    by destruct (String.eqb d d') eqn:E'; [apply String.eqb_eq in E'|].
  - by rewrite IH.
Qed.

Lemma requested_add_count_eq m d delta v :
  lookup_count m d = Some v → requested (add_count m d delta) d = (v + delta)%Z.
Proof. intros H. unfold requested. by rewrite lookup_add_count_eq, H. Qed.

Lemma requested_add_count_ne m d d' delta :
  d ≠ d' → requested (add_count m d delta) d' = requested m d'.
Proof. intros H. unfold requested. by rewrite lookup_add_count_ne. Qed.

Lemma length_add_count m d delta : length (add_count m d delta) = length m.
Proof.
  induction m as [|[k v] m IH]; [done|]. simpl.
  destruct (String.eqb k d); simpl; by rewrite ?IH.
Qed.

Lemma add_count_undo m d : add_count (add_count m d (-1)) d 1 = m.
Proof.
  induction m as [|[k v] m IH]; [done|]. simpl.
  destruct (String.eqb k d) eqn:E; simpl; rewrite E.
  - do 2 f_equal. lia.
  - by rewrite IH.
Qed.

Lemma sum_positive_nonneg m : (0 <= sum_positive m)%Z.
Proof.
  induction m as [|[k v] m IH]; simpl; [done|].
  destruct (Z.ltb_spec 0 v); lia.
Qed.

Lemma sum_positive_take_one m d v :
  lookup_count m d = Some v → (0 < v)%Z →
  sum_positive (add_count m d (-1)) = (sum_positive m - 1)%Z.
Proof.
  induction m as [|[k w] m IH]; [done|]. simpl.
  destruct (String.eqb k d); simpl.
  - intros [= ->] Hv. destruct (Z.ltb_spec 0 v), (Z.ltb_spec 0 (v + -1)); lia.
  - intros Hl Hv. rewrite IH by done. lia.
Qed.

Lemma requested_le_sum_positive m d : (requested m d <= sum_positive m)%Z.
Proof.
  unfold requested. induction m as [|[k v] m IH]; simpl; [done|].
  pose proof (sum_positive_nonneg m).
  destruct (String.eqb k d); simpl in *; destruct (Z.ltb_spec 0 v); lia.
Qed.

Lemma positive_count_true m d :
  positive_count m d = true ↔ ∃ v, lookup_count m d = Some v ∧ (0 < v)%Z.
Proof.
  unfold positive_count. destruct (lookup_count m d) as [v|].
  - rewrite Z.ltb_lt. split; [eauto|]. by intros (? & [= <-] & ?).
  - split; [done|]. by intros (? & ? & ?).
Qed.

(** The length of the pool is the sum of the strictly positive counts. *)
Lemma length_make_pool m :
  NoDup (keys m) → Z.of_nat (length (make_pool m)) = sum_positive m.
Proof.
  unfold make_pool.
  enough (∀ m0, (∀ d, d ∈ keys m → lookup_count m0 d = lookup_count m d) →
            NoDup (keys m) →
            Z.of_nat (length (List.filter (positive_count m0) (keys m)
              ≫= (fun d => replicate (Z.to_nat (requested m0 d)) d)))
            = sum_positive m) as H by (by apply H).
  induction m as [|[k v] m IH]; intros m0 Hm0 Hnd; [done|].
  unfold keys in *. rewrite fmap_cons in *. apply NoDup_cons in Hnd as [Hk Hnd].
  assert (lookup_count m0 k = Some v) as Hkv.
  { rewrite Hm0 by left. simpl. by rewrite String.eqb_refl. }
  assert (∀ d, d ∈ m.*1 → lookup_count m0 d = lookup_count m d) as Hm0'.
  { intros d Hd. rewrite Hm0 by (by right). simpl.
    destruct (String.eqb k d) eqn:E; [|done].
    apply String.eqb_eq in E as ->. done. }
  specialize (IH m0 Hm0' Hnd). cbn [List.filter fst sum_positive].
  unfold positive_count at 1. rewrite Hkv.
  destruct (Z.ltb_spec 0 v).
  - rewrite bind_cons, length_app, length_replicate, Nat2Z.inj_add, IH.
    unfold requested. rewrite Hkv. simpl. lia.
  - rewrite IH. lia.
Qed.

(** ** The candidate list *)

Lemma insert_desc_perm m x l : insert_desc m x l ≡ₚ x :: l.
Proof.
  induction l as [|y l IH]; simpl; [done|].
  destruct (_ <=? _)%Z; [done|]. rewrite IH. apply perm_swap.
Qed.

Lemma sort_desc_perm m l : sort_desc m l ≡ₚ l.
Proof.
  unfold sort_desc. induction l as [|x l IH]; simpl; [done|].
  by rewrite insert_desc_perm, IH.
Qed.

Section CandidateFacts.
Context {RS : RandomSource}.

Lemma candidates_perm m g :
  (candidates m g).1 ≡ₚ List.filter (positive_count m) (keys m).
Proof.
  unfold candidates. destruct (1 <? _)%nat; [|apply sort_desc_perm].
  destruct (random g) as [u g']. destruct (Qltb u threshold).
  - rewrite sort_random_perm. apply sort_desc_perm.
  - apply sort_desc_perm.
Qed.

Lemma candidates_positive m g d :
  d ∈ (candidates m g).1 → positive_count m d = true.
Proof.
  rewrite candidates_perm. rewrite list_elem_of_In, filter_In. tauto.
Qed.

Lemma candidates_length m g : length (candidates m g).1 ≤ length m.
Proof.
  rewrite candidates_perm. etrans; [apply filter_length_le|].
  unfold keys. by rewrite length_fmap.
Qed.

End CandidateFacts.

(** ** The shuffle of the pool *)

Section ShuffleFacts.
Context {RS : RandomSource}.

(** [Math.floor(Math.random()*n)] is an index below [n]. *)
Lemma draw_index_lt (g : Rand) (n : nat) :
  0 < n → Z.to_nat (Qfloor ((random g).1 * inject_Z (Z.of_nat n))) < n.
Proof.
  intros Hn. destruct (random_range g) as [H0 H1].
  set (u := (random g).1) in *.
  assert (0 < inject_Z (Z.of_nat n))%Q as Hpos.
  { rewrite <- (Zlt_Qlt 0). lia. }
  assert (u * inject_Z (Z.of_nat n) < inject_Z (Z.of_nat n))%Q as Hlt.
  { rewrite <- (Qmult_1_l (inject_Z (Z.of_nat n))) at 2.
    by apply Qmult_lt_compat_r. }
  pose proof (Qfloor_le (u * inject_Z (Z.of_nat n))) as Hfl.
  assert (Qfloor (u * inject_Z (Z.of_nat n)) < Z.of_nat n)%Z.
  { rewrite Zlt_Qlt. eapply Qle_lt_trans; eassumption. }
  lia.
Qed.

Lemma swap_perm a i j : swap a i j ≡ₚ a.
Proof.
  unfold swap. destruct (a !! i) as [x|] eqn:Hi; [|done].
  destruct (a !! j) as [y|] eqn:Hj; [|done].
  by apply Permutation_insert_swap.
Qed.

Lemma shuffle_from_perm i : ∀ a g, (shuffle_from i a g).1 ≡ₚ a.
Proof.
  induction i as [|i IH]; intros a g; simpl; [done|].
  destruct (random g) as [u g']. rewrite IH. apply swap_perm.
Qed.

(** The shuffled pool is the pool rearranged. *)
Lemma shuffle_perm a g : (shuffle a g).1 ≡ₚ a.
Proof. apply shuffle_from_perm. Qed.

End ShuffleFacts.

(** ** Counting the cells of a category *)

Lemma count_in_insert d row c old v :
  row !! c = Some old →
  count_in d (<[c := v]> row) + indicator d old = count_in d row + indicator d v.
Proof.
  unfold count_in, indicator. revert c.
  induction row as [|x row IH]; intros [|c] H; simplify_eq/=.
  - destruct (holds d old), (holds d v); simpl; lia.
  - specialize (IH c H). destruct (holds d x); simpl; lia.
Qed.

Lemma count_grid_set2 d g r c old v :
  get2 g r c = Some old →
  count_grid d (set2 g r c v) + indicator d old = count_grid d g + indicator d v.
Proof.
  unfold count_grid, get2, set2. revert r.
  induction g as [|row g IH]; intros [|r] H; simplify_eq/=.
  - pose proof (count_in_insert d row c old v H). lia.
  - specialize (IH r H). lia.
Qed.

Lemma count_grid_place d' g r c d :
  get2 g r c = Some None →
  count_grid d' (set2 g r c (Some d)) =
  count_grid d' g + (if String.eqb d d' then 1 else 0).
Proof.
  intros H. pose proof (count_grid_set2 d' g r c None (Some d) H) as Hcnt.
  unfold indicator, holds in Hcnt. lia.
Qed.

Lemma count_grid_blank d rows cols : count_grid d (blank rows cols) = 0.
Proof.
  unfold count_grid, blank.
  assert (count_in d (replicate cols None) = 0) as Hrow.
  { unfold count_in. induction cols as [|k IHk]; [done|]. by simpl. }
  induction rows as [|n IH]; [done|].
  change (count_in d (replicate cols None)
          + sum_list (count_in d <$> replicate n (replicate cols None)) = 0).
  by rewrite IH, Hrow.
Qed.

(** ** The invariant of the search *)

Section Search.
Context {RS : RandomSource}.
Variables (rows cols : nat) (attemptLimit : Z) (countsMap : Counts).

Lemma adjacent_sym p q : adjacent p q → adjacent q p.
Proof. unfold adjacent. lia. Qed.

Lemma adjacent_irrefl p : ¬ adjacent p p.
Proof. unfold adjacent. lia. Qed.

Lemma Inv_place r c rest g cl d :
  Inv rows cols countsMap ((r, c) :: rest) g cl →
  (r, c) ∉ rest → r < rows → c < cols →
  canPlace rows cols g r c d = true →
  positive_count cl d = true →
  Inv rows cols countsMap rest (set2 g r c (Some d)) (add_count cl d (-1)).
Proof.
  intros [Hsh Htodo Hdone Hadj Htally Hfloor Hleft] Hfresh Hr Hc Hcan Hpos.
  apply positive_count_true in Hpos as (v & Hv & Hv0).
  assert (get2 g r c = Some None) as Hhere by (apply Htodo; left).
  rewrite canPlace_true in Hcan.
  assert (∀ q, adjacent (r, c) q → get2 g q.1 q.2 ≠ Some (Some d)) as Hnb.
  { intros [r' c'] Hq Hg. simpl in Hg.
    assert (r' < rows ∧ c' < cols) as [? ?]
      by (apply (shape_get2 rows cols g r' c' Hsh); by rewrite Hg).
    apply (Hcan (r', c')); [|done].
    apply elem_of_neighbors; done. }
  split.
  - by apply set2_shape.
  - intros r1 c1 Hin. rewrite get2_set2_ne by (intros [= -> ->]; done).
    apply Htodo. by right.
  - intros r1 c1 Hr1 Hc1 Hout.
    destruct (decide ((r, c) = (r1, c1))) as [[= <- <-]|Hne].
    + exists d. by eapply get2_set2_eq.
    + rewrite get2_set2_ne by done. apply Hdone; [done..|].
      rewrite not_elem_of_cons. split; [congruence|done].
  - intros [r1 c1] [r2 c2] d0 Hpq. simpl.
    destruct (decide ((r, c) = (r1, c1))) as [[= <- <-]|Hne1].
    + rewrite (get2_set2_eq g r c (Some d) None Hhere). intros [= <-].
      rewrite get2_set2_ne by (intros [= <- <-]; by apply adjacent_irrefl in Hpq).
      by apply (Hnb (r2, c2)).
    + rewrite get2_set2_ne by done. intros Hp.
      destruct (decide ((r, c) = (r2, c2))) as [[= <- <-]|Hne2].
      * rewrite (get2_set2_eq g r c (Some d) None Hhere). intros [= ->].
        by apply (Hnb (r1, c1)); [apply adjacent_sym|].
      * rewrite get2_set2_ne by done. by apply (Hadj (r1, c1) (r2, c2)).
  - intros d'. rewrite (count_grid_place d' g r c d Hhere).
    specialize (Htally d').
    destruct (String.eqb d d') eqn:E.
    + apply String.eqb_eq in E as <-.
      rewrite (requested_add_count_eq _ _ _ _ Hv).
      assert (requested cl d = v) as Hreq by (unfold requested; by rewrite Hv).
      lia.
    + apply String.eqb_neq in E. rewrite requested_add_count_ne by done. lia.
  - intros d'. specialize (Hfloor d').
    destruct (decide (d = d')) as [<-|Hne].
    + rewrite (requested_add_count_eq _ _ _ _ Hv). lia.
    + by rewrite requested_add_count_ne.
  - rewrite (sum_positive_take_one _ _ _ Hv Hv0). simpl in Hleft. lia.
Qed.

Lemma unplace_restores st st' r c d :
  get2 (grid st) r c = Some None →
  grid st' = grid (place st r c d) →
  countsLeft st' = countsLeft (place st r c d) →
  grid (unplace st' r c d) = grid st ∧
  countsLeft (unplace st' r c d) = countsLeft st.
Proof.
  intros Hhere Hg Hc. simpl in *. rewrite Hg, Hc. split.
  - rewrite set2_set2. by apply set2_same.
  - apply add_count_undo.
Qed.

Lemma try_each_sound next r c rest :
  (∀ st1, Inv rows cols countsMap rest (grid st1) (countsLeft st1) →
          outcome_ok rows cols countsMap (grid st1) (countsLeft st1) (next st1)) →
  (r, c) ∉ rest → r < rows → c < cols →
  ∀ cand st,
    (∀ d, d ∈ cand → positive_count (countsLeft st) d = true) →
    Inv rows cols countsMap ((r, c) :: rest) (grid st) (countsLeft st) →
    outcome_ok rows cols countsMap (grid st) (countsLeft st)
               (try_each rows cols next r c cand st).
Proof.
  intros Hnext Hfresh Hr Hc cand.
  induction cand as [|d cand IH]; intros st Hcand Hinv; simpl; [done|].
  destruct (canPlace rows cols (grid st) r c d) eqn:Hcan.
  - assert (positive_count (countsLeft st) d = true) as Hpos by (apply Hcand; left).
    pose proof (Inv_place r c rest _ _ d Hinv Hfresh Hr Hc Hcan Hpos) as Hplaced.
    specialize (Hnext (place st r c d) Hplaced).
    destruct (next (place st r c d)) as [[|] st']; simpl in Hnext; [done|].
    destruct Hnext as [Hg Hcl].
    destruct (unplace_restores st st' r c d) as [Eg Ec]; [|done..|].
    { apply (inv_todo _ _ _ _ _ _ Hinv). left. }
    rewrite <- Eg, <- Ec. apply IH; rewrite ?Eg, ?Ec; [|done].
    intros d' Hd'. apply Hcand. by right.
  - apply IH; [|done]. intros d' Hd'. apply Hcand. by right.
Qed.

Lemma dfs_unfold rest st :
  dfs rows cols attemptLimit rest st =
  let st1 := mkState (grid st) (countsLeft st) (attempts st + 1) (rng st) in
  if (attemptLimit <? attempts st1)%Z then (false, st1)
  else
    match rest with
    | [] => (true, st1)
    | (r, c) :: rest' =>
        try_each rows cols (dfs rows cols attemptLimit rest') r c
                 (candidates (countsLeft st1) (rng st1)).1
                 (mkState (grid st1) (countsLeft st1) (attempts st1)
                          (candidates (countsLeft st1) (rng st1)).2)
    end.
Proof.
  destruct rest as [|[r c] rest']; simpl; [done|].
  destruct (attemptLimit <? attempts st + 1)%Z; [done|].
  by destruct (candidates (countsLeft st) (rng st)).
Qed.

Lemma dfs_sound rest :
  NoDup rest →
  (∀ r c, (r, c) ∈ rest → r < rows ∧ c < cols) →
  ∀ st, Inv rows cols countsMap rest (grid st) (countsLeft st) →
        outcome_ok rows cols countsMap (grid st) (countsLeft st)
                   (dfs rows cols attemptLimit rest st).
Proof.
  induction rest as [|[r c] rest IH]; intros Hnd Hin st Hinv; rewrite dfs_unfold; simpl.
  - by destruct (attemptLimit <? attempts st + 1)%Z.
  - destruct (attemptLimit <? attempts st + 1)%Z; [done|].
    apply NoDup_cons in Hnd as [Hfresh Hnd].
    destruct (Hin r c) as [Hr Hc]; [left|].
    refine (try_each_sound _ r c rest _ Hfresh Hr Hc _ (mkState _ _ _ _) _ Hinv).
    + intros st1. apply IH; [done|]. intros r1 c1 H1. apply Hin. by right.
    + intros d. apply candidates_positive.
Qed.

(** A grid that [tryArrange] returns satisfies the invariant with no cell
    left to fill. *)
Lemma tryArrange_sound g grid0 :
  tryArrange rows cols attemptLimit countsMap g = Some grid0 →
  length (make_pool countsMap) = rows * cols ∧
  ∃ cl, Inv rows cols countsMap [] grid0 cl.
Proof.
  unfold tryArrange, tryArrange_run.
  destruct (Nat.eqb_spec (length (make_pool countsMap)) (rows * cols)) as [Hlen|];
    [simpl|done].
  destruct (shuffle _ g) as [pool' g1].
  pose proof (dfs_sound (all_cells rows cols) (NoDup_all_cells rows cols)) as Hs.
  specialize (Hs (λ r c, proj1 (elem_of_all_cells rows cols r c))
                 (mkState (blank rows cols) countsMap 0 g1)).
  destruct (dfs _ _ _ _ _) as [[|] st]; simpl; [|done].
  intros [= <-]. split; [done|]. exists (countsLeft st). apply Hs. simpl. split.
  - apply blank_shape.
  - intros r c [Hr Hc]%elem_of_all_cells. by apply get2_blank.
  - intros r c Hr Hc Hout. destruct Hout. by apply elem_of_all_cells.
  - intros p q d _ Hp.
    assert (is_Some (@get2 (option string) (blank rows cols) p.1 p.2)) as Hs'
      by (by rewrite Hp).
    apply (shape_get2 rows cols _ _ _ (blank_shape rows cols)) in Hs' as [? ?].
    rewrite get2_blank in Hp by done. done.
  - intros d. rewrite count_grid_blank. lia.
  - intros d. lia.
  - by rewrite length_all_cells.
Qed.

Lemma count_grid_pos d g r c :
  get2 g r c = Some (Some d) → 0 < count_grid d g.
Proof.
  unfold get2, count_grid. revert r.
  induction g as [|row g IH]; intros [|r] H; simplify_eq/=.
  - enough (0 < count_in d row) by lia. clear IH. revert c H. unfold count_in.
    induction row as [|x row IH]; intros [|c] H; simplify_eq/=.
    + rewrite String.eqb_refl. simpl. lia.
    + specialize (IH c H). destruct (holds d x); simpl; lia.
  - specialize (IH r H). lia.
Qed.

(** In a returned grid every category is held by as many cells as were
    requested, none if the request was not positive. *)
Lemma final_count g grid0 d :
  NoDup (keys countsMap) →
  tryArrange rows cols attemptLimit countsMap g = Some grid0 →
  Z.of_nat (count_grid d grid0) = Z.max 0 (requested countsMap d).
Proof.
  intros Hkeys (Hlen & cl & Hinv)%tryArrange_sound.
  pose proof (inv_left _ _ _ _ _ _ Hinv) as Hleft.
  pose proof (inv_tally _ _ _ _ _ _ Hinv d) as Htally.
  pose proof (inv_floor _ _ _ _ _ _ Hinv d) as Hfloor.
  pose proof (requested_le_sum_positive cl d) as Hle.
  pose proof (length_make_pool countsMap Hkeys) as Hpool.
  rewrite Hlen in Hpool. simpl in Hleft. lia.
Qed.

End Search.

(** ** The attempt counter *)

Section Budget.
Context {RS : RandomSource}.
Variables (rows cols : nat) (attemptLimit : Z).

(** Once the counter has reached the limit, a call of [dfs] only
    increments it and fails. *)
Lemma dfs_over_limit rest st :
  (attemptLimit <= attempts st)%Z →
  dfs rows cols attemptLimit rest st = (false, bumped st).
Proof.
  intros H. rewrite dfs_unfold. simpl.
  destruct (Z.ltb_spec attemptLimit (attempts st + 1)); [done|lia].
Qed.

Lemma try_each_budget next r c K B :
  (∀ st1, length (countsLeft st1) = K →
          (attempts (next st1).2 <= Z.max (attempts st1 + 1) B)%Z ∧
          length (countsLeft (next st1).2) = K) →
  ∀ cand st, length (countsLeft st) = K →
    (attempts (try_each rows cols next r c cand st).2
     <= Z.max (attempts st) B + Z.of_nat (length cand))%Z ∧
    length (countsLeft (try_each rows cols next r c cand st).2) = K.
Proof.
  intros Hnext cand. induction cand as [|d cand IH]; intros st HK; simpl.
  - split; [lia|done].
  - destruct (canPlace rows cols (grid st) r c d).
    + destruct (Hnext (place st r c d)) as [Ha Hl].
      { simpl. by rewrite length_add_count. }
      destruct (next (place st r c d)) as [[|] st']; simpl in *.
      * split; [lia|done].
      * destruct (IH (unplace st' r c d)) as [Ha' Hl'].
        { simpl. by rewrite length_add_count. }
        simpl in Ha'. split; [lia|done].
    + destruct (IH st HK) as [Ha Hl]. split; [lia|done].
Qed.

Lemma dfs_budget rest :
  ∀ st,
    (attempts (dfs rows cols attemptLimit rest st).2
     <= Z.max (attempts st + 1)
              (attemptLimit + 1
               + Z.of_nat (length rest) * Z.of_nat (length (countsLeft st))))%Z ∧
    length (countsLeft (dfs rows cols attemptLimit rest st).2)
    = length (countsLeft st).
Proof.
  induction rest as [|[r c] rest IH]; intros st; rewrite dfs_unfold; simpl.
  - destruct (attemptLimit <? attempts st + 1)%Z; simpl; split; (lia || done).
  - destruct (Z.ltb_spec attemptLimit (attempts st + 1)); simpl; [split; (lia || done)|].
    set (K := length (countsLeft st)).
    set (B := (attemptLimit + 1 + Z.of_nat (length rest) * Z.of_nat K)%Z).
    destruct (try_each_budget (dfs rows cols attemptLimit rest) r c K B) with
      (cand := (candidates (countsLeft st) (rng st)).1)
      (st := mkState (grid st) (countsLeft st) (attempts st + 1)
                     (candidates (countsLeft st) (rng st)).2) as [Ha Hl].
    { intros st1 H1. destruct (IH st1) as [Ha Hl]. rewrite H1 in Ha, Hl. done. }
    { done. }
    pose proof (candidates_length (countsLeft st) (rng st)) as Hcand.
    simpl in Ha. split; [|done]. fold K in Hcand. nia.
Qed.

Lemma try_each_within next r c :
  (∀ st1 st', next st1 = (true, st') → (attempts st' <= attemptLimit)%Z) →
  ∀ cand st st', try_each rows cols next r c cand st = (true, st') →
                 (attempts st' <= attemptLimit)%Z.
Proof.
  intros Hnext cand. induction cand as [|d cand IH]; intros st st'; simpl; [done|].
  destruct (canPlace rows cols (grid st) r c d); [|apply IH].
  destruct (next (place st r c d)) as [[|] st1] eqn:E.
  - intros [= <-]. by eapply Hnext.
  - apply IH.
Qed.

(** A search that succeeds never pushed the counter past the limit. *)
Lemma dfs_within rest :
  ∀ st st', dfs rows cols attemptLimit rest st = (true, st') →
            (attempts st' <= attemptLimit)%Z.
Proof.
  induction rest as [|[r c] rest IH]; intros st st'; rewrite dfs_unfold; simpl.
  - destruct (Z.ltb_spec attemptLimit (attempts st + 1)); [done|].
    intros [= <-]. simpl. lia.
  - destruct (Z.ltb_spec attemptLimit (attempts st + 1)); [done|].
    apply try_each_within. apply IH.
Qed.

Lemma try_each_at_eq next_at next r c cand :
  (∀ st1, next_at st1 = Some (next st1)) →
  ∀ st, try_each_at rows cols next_at r c cand st
        = Some (try_each rows cols next r c cand st).
Proof.
  intros Hnext. induction cand as [|d cand IH]; intros st; simpl; [done|].
  destruct (canPlace rows cols (grid st) r c d); [|apply IH].
  rewrite Hnext. destruct (next (place st r c d)) as [[|] st']; [done|apply IH].
Qed.

(** The recursion on [idx] ends: with more fuel than there are cells from
    [idx] on, it gives what the recursion on the remaining cells gives. *)
Lemma dfs_at_dfs cells fuel :
  ∀ idx st, idx ≤ length cells → length cells - idx < fuel →
    dfs_at rows cols attemptLimit cells fuel idx st
    = Some (dfs rows cols attemptLimit (drop idx cells) st).
Proof.
  induction fuel as [|fuel IH]; intros idx st Hidx Hfuel; [lia|].
  rewrite dfs_unfold. cbn [dfs_at]. cbv zeta.
  cbn [grid countsLeft attempts rng].
  destruct (attemptLimit <? attempts st + 1)%Z; [done|].
  destruct (Nat.eqb_spec idx (length cells)) as [->|Hne].
  - by rewrite drop_all.
  - destruct (lookup_lt_is_Some_2 cells idx) as [[r c] Hcell]; [lia|].
    rewrite Hcell, (drop_S _ _ _ Hcell).
    destruct (candidates (countsLeft st) (rng st)) as [cand g]. cbn [fst snd].
    apply try_each_at_eq. intros st1. rewrite Nat.add_1_r. apply IH; lia.
Qed.

End Budget.

(** ** Sums of counts, and a grid too small for three of a kind *)

Lemma foldl_add_shift (l : list Z) (a : Z) :
  foldl Z.add a l = (a + foldl Z.add 0 l)%Z.
Proof.
  revert a. induction l as [|x l IH]; intros a; simpl; [lia|].
  rewrite (IH (a + x)%Z), (IH (0 + x)%Z). lia.
Qed.

(** Where no count is negative, the sum of the positive counts is the
    sum of all counts. *)
Lemma sum_positive_totalCount m :
  Forall (fun kv => (0 <= kv.2)%Z) m → sum_positive m = totalCount m.
Proof.
  unfold totalCount. induction m as [|[k v] m IH]; intros H; [done|].
  apply Forall_cons in H as [Hv H]. cbn [sum_positive].
  rewrite fmap_cons. cbn [foldl snd] in *.
  rewrite foldl_add_shift, <- IH by done.
  destruct (Z.ltb_spec 0 v); lia.
Qed.

Lemma holds_true d x : holds d x = true ↔ x = Some d.
Proof.
  destruct x as [s|]; simpl; [|done].
  rewrite String.eqb_eq. split; congruence.
Qed.

(** In a 2 by 2 grid where cells sharing an edge differ, a category is
    held by fewer than 3 cells. *)
Lemma crowded_2x2 (g : Grid) d :
  shape 2 2 g →
  (∀ p q d, adjacent p q → get2 g p.1 p.2 = Some (Some d) →
            get2 g q.1 q.2 ≠ Some (Some d)) →
  count_grid d g < 3.
Proof.
  intros [Hl Hf] Hadj.
  destruct g as [|r1 [|r2 [|]]]; try done.
  apply Forall_cons in Hf as [H1 Hf]. apply Forall_cons in Hf as [H2 _].
  destruct r1 as [|a [|b [|]]]; try done.
  destruct r2 as [|c [|e [|]]]; try done.
  unfold count_grid, count_in. simpl.
  destruct (holds d a) eqn:Ha, (holds d b) eqn:Hb,
    (holds d c) eqn:Hc, (holds d e) eqn:He; simpl; try lia; exfalso;
    rewrite ?holds_true in *; subst;
    first
      [ by apply (Hadj (0, 0) (0, 1) d); [unfold adjacent; simpl; lia|..]
      | by apply (Hadj (0, 0) (1, 0) d); [unfold adjacent; simpl; lia|..]
      | by apply (Hadj (0, 1) (1, 1) d); [unfold adjacent; simpl; lia|..] ].
Qed.

(** ** The claims about [tryArrange] *)

Section SolverClaims.
Context {RS : RandomSource}.

(** C1 (adjacency invariant).  Whenever [tryArrange] returns a grid, any
    two cells of it that share an edge (up, down, left or right, both
    inside the grid) hold categories, and different ones. *)
Theorem tryArrange_adjacent_differ rows cols countsMap attemptLimit g grid0
    r c r' c' :
  tryArrange rows cols attemptLimit countsMap g = Some grid0 →
  r < rows → c < cols → r' < rows → c' < cols →
  adjacent (r, c) (r', c') →
  ∃ d d', read grid0 r c = VStr d ∧ read grid0 r' c' = VStr d' ∧ d ≠ d'.
Proof.
  intros (_ & cl & Hinv)%tryArrange_sound Hr Hc Hr' Hc' Hadj.
  destruct (inv_done _ _ _ _ _ _ Hinv r c Hr Hc) as [d Hd]; [apply not_elem_of_nil|].
  destruct (inv_done _ _ _ _ _ _ Hinv r' c' Hr' Hc') as [d' Hd'];
    [apply not_elem_of_nil|].
  exists d, d'. rewrite !read_VStr. split; [done|]. split; [done|].
  intros <-. by apply (inv_adj _ _ _ _ _ _ Hinv (r, c) (r', c') d).
Qed.

(** C2 (count fidelity).  Whenever [tryArrange] returns a grid, it is a
    [rows] by [cols] grid all of whose cells hold a category, every
    category is held by exactly as many cells as were requested, and a
    category requested 0 times is held by no cell. *)
Theorem tryArrange_count_fidelity rows cols countsMap attemptLimit g grid0 :
  NoDup (keys countsMap) →
  tryArrange rows cols attemptLimit countsMap g = Some grid0 →
  shape rows cols grid0 ∧
  (∀ r c, r < rows → c < cols → ∃ d, read grid0 r c = VStr d) ∧
  (∀ d, (0 <= requested countsMap d)%Z →
        Z.of_nat (count_grid d grid0) = requested countsMap d) ∧
  (∀ d r c, requested countsMap d = 0%Z → read grid0 r c ≠ VStr d).
Proof.
  intros Hkeys Hrun.
  pose proof (final_count rows cols attemptLimit countsMap g grid0) as Hcount.
  destruct (tryArrange_sound _ _ _ _ _ _ Hrun) as (_ & cl & Hinv).
  split; [apply (inv_shape _ _ _ _ _ _ Hinv)|]. split; [|split].
  - intros r c Hr Hc.
    destruct (inv_done _ _ _ _ _ _ Hinv r c Hr Hc) as [d Hd]; [apply not_elem_of_nil|].
    exists d. by apply read_VStr.
  - intros d Hd. rewrite Hcount by done. lia.
  - intros d r c Hd Hread%read_VStr%count_grid_pos.
    specialize (Hcount d Hkeys Hrun). lia.
Qed.

(** C3 (mismatch rejection).  For counts none of which is negative and
    whose sum is not [rows * cols], [tryArrange] returns [null] at its
    first [return]: the random source is as it was received (not even the
    pool was shuffled), [dfs] was never called and [attempts] never
    incremented. *)
Theorem tryArrange_mismatch_immediate rows cols countsMap attemptLimit g :
  NoDup (keys countsMap) →
  Forall (fun kv => (0 <= kv.2)%Z) countsMap →
  totalCount countsMap ≠ Z.of_nat (rows * cols) →
  tryArrange_run rows cols attemptLimit countsMap g = EarlyReturn g ∧
  tryArrange rows cols attemptLimit countsMap g = None ∧
  attempts_made (tryArrange_run rows cols attemptLimit countsMap g) = 0%Z.
Proof.
  intros Hkeys Hnn Hsum.
  assert (tryArrange_run rows cols attemptLimit countsMap g = EarlyReturn g) as E.
  { unfold tryArrange_run.
    destruct (Nat.eqb_spec (length (make_pool countsMap)) (rows * cols)) as [Hlen|];
      [exfalso|done].
    apply Hsum. rewrite <- sum_positive_totalCount, <- length_make_pool by done.
    by rewrite Hlen. }
  unfold tryArrange. by rewrite E.
Qed.

(** C8 (termination).  The recursion of [dfs] on [idx] ends: started at
    0 with more fuel than the grid has cells it returns, and returns what
    [dfs] on the cell list returns, so [tryArrange] is a total function of
    its arguments and of the random source.  For a positive [attemptLimit]
    the final value of [attempts], that is the number of calls of [dfs], is
    at most [attemptLimit + 1 + rows * cols * (number of categories)]; it
    is at most [attemptLimit] when a grid is returned; a call of [dfs] made
    when the counter has reached the limit fails at once; and on the 2 by 2
    grid with counts A:3, B:1 the search is run and fails. *)
Theorem tryArrange_bounded rows cols countsMap attemptLimit g :
  (0 < attemptLimit)%Z →
  (∀ fuel st, rows * cols < fuel →
     dfs_at rows cols attemptLimit (all_cells rows cols) fuel 0 st
     = Some (dfs rows cols attemptLimit (all_cells rows cols) st)) ∧
  (attempts_made (tryArrange_run rows cols attemptLimit countsMap g)
   <= attemptLimit + 1 + Z.of_nat (rows * cols) * Z.of_nat (length countsMap))%Z ∧
  (tryArrange rows cols attemptLimit countsMap g ≠ None →
   (attempts_made (tryArrange_run rows cols attemptLimit countsMap g)
    <= attemptLimit)%Z) ∧
  (∀ rest st, (attemptLimit <= attempts st)%Z →
     dfs rows cols attemptLimit rest st = (false, bumped st)) ∧
  (∃ st, tryArrange_run 2 2 attemptLimit [("A", 3%Z); ("B", 1%Z)] g
         = Finished false st) ∧
  tryArrange 2 2 attemptLimit [("A", 3%Z); ("B", 1%Z)] g = None.
Proof.
  intros Hpos. split; [|split; [|split; [|split; [|]]]].
  - intros fuel st Hfuel. rewrite dfs_at_dfs; [done|lia|].
    rewrite length_all_cells. lia.
  - unfold tryArrange_run. destruct (_ =? _)%nat; simpl; [|nia].
    destruct (shuffle _ g) as [pool' g1].
    destruct (dfs_budget rows cols attemptLimit (all_cells rows cols)
                (mkState (blank rows cols) countsMap 0 g1)) as [Ha _].
    destruct (dfs _ _ _ _ _) as [ok st]. simpl in *.
    rewrite length_all_cells in Ha. nia.
  - unfold tryArrange, tryArrange_run. destruct (_ =? _)%nat; simpl; [|done].
    destruct (shuffle _ g) as [pool' g1].
    destruct (dfs _ _ _ _ _) as [[|] st] eqn:E; simpl; [|done].
    intros _. by eapply dfs_within.
  - intros rest st. apply dfs_over_limit.
  - assert (tryArrange 2 2 attemptLimit [("A", 3%Z); ("B", 1%Z)] g = None) as Hnone.
    { destruct (tryArrange _ _ _ _ _) as [grid0|] eqn:E; [exfalso|done].
      assert (NoDup (keys [("A", 3%Z); ("B", 1%Z)])) as Hkeys
        by (apply (bool_decide_unpack _); vm_compute; reflexivity).
      pose proof (final_count _ _ _ _ _ _ "A" Hkeys E) as Hcount.
      apply tryArrange_sound in E as (_ & cl & Hinv).
      pose proof (crowded_2x2 grid0 "A" (inv_shape _ _ _ _ _ _ Hinv)
                    (inv_adj _ _ _ _ _ _ Hinv)) as Hlt.
      change (requested [("A", 3%Z); ("B", 1%Z)] "A") with 3%Z in Hcount. lia. }
    split; [|done]. revert Hnone. unfold tryArrange, tryArrange_run.
    change (negb (length (make_pool [("A", 3%Z); ("B", 1%Z)]) =? 2 * 2)%nat) with false.
    cbv iota. destruct (shuffle _ g) as [pool' g1].
    destruct (dfs _ _ _ _ _) as [[|] st]; simpl; [done|]. by exists st.
Qed.

(** C10 (non-positive counts).  The first check of [tryArrange] compares
    [rows * cols] with the sum of the strictly positive counts only, and a
    returned grid holds only categories whose count is strictly positive.
    On the 2 by 2 grid with counts A:4, B:-1, whose sum is 3, the check
    passes and the search is run: [dfs] is called twice, A is placed in the
    first cell, fits nowhere else, and the search fails. *)
Theorem tryArrange_ignores_nonpositive rows cols countsMap attemptLimit g :
  NoDup (keys countsMap) →
  (0 < attemptLimit)%Z →
  (tryArrange_run rows cols attemptLimit countsMap g = EarlyReturn g ↔
   sum_positive countsMap ≠ Z.of_nat (rows * cols)) ∧
  (∀ grid0 r c d,
     tryArrange rows cols attemptLimit countsMap g = Some grid0 →
     read grid0 r c = VStr d → (0 < requested countsMap d)%Z) ∧
  totalCount [("A", 4%Z); ("B", (-1)%Z)] = 3%Z ∧
  ∃ g1, tryArrange_run 2 2 attemptLimit [("A", 4%Z); ("B", (-1)%Z)] g
        = Finished false
            (mkState (blank 2 2) [("A", 4%Z); ("B", (-1)%Z)] 2 g1).
Proof.
  intros Hkeys Hpos. split; [|split; [|split; [done|]]].
  - unfold tryArrange_run. rewrite <- length_make_pool by done.
    destruct (Nat.eqb_spec (length (make_pool countsMap)) (rows * cols)) as [->|Hne];
      simpl.
    + destruct (shuffle _ g) as [pool' g1]. destruct (dfs _ _ _ _ _) as [ok st].
      split; [done|]. intros H. by destruct H.
    + split; [|done]. intros _ H. apply Hne. by apply Nat2Z.inj.
  - intros grid0 r c d Hrun Hread%read_VStr%count_grid_pos.
    pose proof (final_count _ _ _ _ _ _ d Hkeys Hrun). lia.
  - unfold tryArrange_run.
    change (negb (length (make_pool [("A", 4%Z); ("B", (-1)%Z)]) =? 2 * 2)%nat)
      with false.
    cbv iota. destruct (shuffle _ g) as [pool' g1]. exists g1.
    rewrite dfs_unfold. simpl.
    destruct (Z.ltb_spec attemptLimit (0 + 1)) as [|_]; [lia|].
    destruct (attemptLimit <? 0 + 1 + 1)%Z; reflexivity.
Qed.

End SolverClaims.

Lemma tryArrange_adjacent_differ_witness :
  ∃ d d', read [[Some "A"; Some "B"]] 0 0 = VStr d ∧
          read [[Some "A"; Some "B"]] 0 1 = VStr d' ∧ d ≠ d'.
Proof.
  apply (tryArrange_adjacent_differ (RS := steady) 1 2
           [("A", 1%Z); ("B", 1%Z)] default_attemptLimit 0 _ 0 0 0 1).
  - vm_compute. reflexivity.
  - lia.
  - lia.
  - lia.
  - lia.
  - unfold adjacent. simpl. lia.
Defined.

Lemma tryArrange_count_fidelity_witness :
  shape 1 2 [[Some "A"; Some "B"]] ∧
  (∀ r c, r < 1 → c < 2 → ∃ d, read [[Some "A"; Some "B"]] r c = VStr d) ∧
  (∀ d, (0 <= requested [("A", 1%Z); ("B", 1%Z)] d)%Z →
        Z.of_nat (count_grid d [[Some "A"; Some "B"]])
        = requested [("A", 1%Z); ("B", 1%Z)] d) ∧
  (∀ d r c, requested [("A", 1%Z); ("B", 1%Z)] d = 0%Z →
            read [[Some "A"; Some "B"]] r c ≠ VStr d).
Proof.
  apply (tryArrange_count_fidelity (RS := steady) 1 2
           [("A", 1%Z); ("B", 1%Z)] default_attemptLimit 0).
  - apply (bool_decide_unpack _). vm_compute. reflexivity.
  - vm_compute. reflexivity.
Defined.

(** ** [assignRollsToGrid]: the loops meet the row-major description *)

Lemma occurrences_snoc k l x :
  occurrences k (l ++ [x])
  = occurrences k l + (if String.eqb (cell_key x) k then 1 else 0).
Proof.
  unfold occurrences. rewrite List.filter_app, length_app. simpl.
  by destruct (String.eqb (cell_key x) k).
Qed.

Lemma shape_cell {A : Type} rows cols (g : list (list A)) r c :
  shape rows cols g → r < rows → c < cols →
  ∃ row x, g !! r = Some row ∧ row !! c = Some x ∧
           mjoin g !! (r * cols + c) = Some x.
Proof.
  intros [Hl Hf] Hr Hc. rewrite <- Hl in Hr.
  apply lookup_lt_is_Some in Hr as [row Hrow].
  pose proof (Forall_lookup_1 _ _ _ _ Hf Hrow) as Hlen. simpl in Hlen.
  rewrite <- Hlen in Hc. apply lookup_lt_is_Some in Hc as [x Hx].
  exists row, x. split; [done|]. split; [done|].
  apply (join_lookup_Some_same_length' cols); [done| |by eauto].
  rewrite <- Hlen. by eapply lookup_lt_Some.
Qed.

Section LabelFacts.
Context {EN : Engine}.

(** Counting a name that is not inherited: the counter goes from [n] to
    [n + 1], and that is the number the roll is made of. *)
Lemma count_plain (counters : gmap string Counter) k n :
  inherited k = false → counters !! k = held n →
  put_counter counters k (plus_one (get_counter counters k))
  = <[k := CNum (S n)]> counters ∧
  text_of (get_counter
             (put_counter counters k (plus_one (get_counter counters k))) k)
  = string_of_nat (S n).
Proof.
  intros [Hp Hf]%orb_false_elim Hk.
  assert (plus_one (get_counter counters k) = CNum (S n)) as ->.
  { unfold get_counter. rewrite Hk. destruct n as [|n]; simpl.
    - by rewrite Hp, Hf.
    - by rewrite Nat.add_1_r. }
  unfold put_counter. rewrite Hp. split; [done|].
  unfold get_counter. by rewrite lookup_insert_eq.
Qed.

Lemma label_cell_other g r c acc k :
  k ≠ to_key (read g r c) → (label_cell g r c acc).1 !! k = acc.1 !! k.
Proof.
  intros Hne. unfold label_cell, put_counter. cbn [fst].
  destruct (String.eqb _ "__proto__"); [done|]. by rewrite lookup_insert_ne.
Qed.

Lemma label_cell_step g rows cols r c acc :
  shape rows cols g → r < rows → c < cols →
  labelled g rows cols (r * cols + c) acc →
  labelled g rows cols (S (r * cols + c)) (label_cell g r c acc).
Proof.
  intros Hsh Hr Hc (Hcnt & Hres & Hget).
  destruct (shape_cell rows cols g r c Hsh Hr Hc) as (row & x & Hrow & Hx & Hflat).
  assert (read g r c = cell_value x) as Hread.
  { unfold read, get2. rewrite Hrow, Hx. by destruct x. }
  assert (to_key (read g r c) = cell_key x) as Hkey by (by rewrite Hread).
  unfold labelled. rewrite (take_S_r _ _ _ Hflat).
  split; [|split].
  - intros k Hk. rewrite occurrences_snoc.
    destruct (String.eqb (cell_key x) k) eqn:E.
    + apply String.eqb_eq in E. rewrite <- E, <- Hkey in Hk |- *.
      unfold label_cell. cbn [fst].
      rewrite (proj1 (count_plain _ _ _ Hk (Hcnt _ Hk))), lookup_insert_eq.
      rewrite Hkey. by rewrite Nat.add_1_r.
    + apply String.eqb_neq in E. rewrite label_cell_other by congruence.
      rewrite Hcnt by done. by rewrite Nat.add_0_r.
  - unfold label_cell. cbn [snd]. by apply set2_shape.
  - intros r' c' Hr' Hc'. unfold label_cell. cbn [snd].
    destruct (decide ((r, c) = (r', c'))) as [[= <- <-]|Hne].
    + destruct (decide (r * cols + c < S (r * cols + c))); [|lia].
      specialize (Hget r c Hr Hc).
      destruct (decide (r * cols + c < r * cols + c)); [lia|].
      eexists. split; [by eapply get2_set2_eq|]. split; [done|].
      intros Hk. rewrite (proj2 (count_plain _ _ _ Hk (Hcnt _ Hk))).
      unfold seat_at, make_roll.
      rewrite (take_S_r _ _ _ Hflat), occurrences_snoc.
      rewrite <- Hkey, String.eqb_refl, Nat.add_1_r. done.
    + rewrite get2_set2_ne by done. specialize (Hget r' c' Hr' Hc').
      assert (r' * cols + c' ≠ r * cols + c).
      { intros Heq. apply Hne.
        assert (r' = r) as -> by nia. f_equal. lia. }
      destruct (decide (r' * cols + c' < r * cols + c)),
        (decide (r' * cols + c' < S (r * cols + c))); (done || lia).
Qed.

Lemma label_row_steps g rows cols r acc n :
  shape rows cols g → r < rows → n ≤ cols →
  labelled g rows cols (r * cols) acc →
  labelled g rows cols (r * cols + n)
    (foldl (fun acc c => label_cell g r c acc) acc (seq 0 n)).
Proof.
  intros Hsh Hr Hn Hacc. induction n as [|n IH].
  - by rewrite Nat.add_0_r.
  - rewrite seq_S, foldl_snoc. simpl.
    replace (r * cols + S n) with (S (r * cols + n)) by lia.
    apply label_cell_step; [done|done|lia|]. apply IH. lia.
Qed.

Lemma label_rows_steps g rows cols n :
  shape rows cols g → n ≤ rows →
  labelled g rows cols (n * cols)
    (foldl (fun acc r => label_row g cols r acc) (∅, blank rows cols) (seq 0 n)).
Proof.
  intros Hsh Hn. induction n as [|n IH].
  - simpl. split; [|split]; simpl.
    + intros k _. by rewrite lookup_empty.
    + apply blank_shape.
    + intros r c Hr Hc. destruct (decide (r * cols + c < 0)); [lia|].
      by apply get2_blank.
  - rewrite seq_S, foldl_snoc. simpl. unfold label_row at 1.
    replace (cols + n * cols) with (n * cols + cols) by lia.
    apply label_row_steps; [done|lia|done|]. apply IH. lia.
Qed.

(** On a non-empty rectangular grid the loops return a grid of the same
    dimensions whose cells are seats that carry what the grid holds; where
    the name is not inherited, the seat at [(r,c)] is [seat_at g cols r c]. *)
Lemma assignRollsToGrid_rect (g : Grid) rows cols :
  shape rows cols g → 0 < rows →
  ∃ seats, assignRollsToGrid g = Returned seats ∧
           shape rows cols seats ∧
           ∀ r c, r < rows → c < cols →
             ∃ s, get2 seats r c = Some (Some s) ∧ dept s = read g r c ∧
                  (inherited (to_key (read g r c)) = false →
                   s = seat_at g cols r c).
Proof.
  intros Hsh Hrows.
  pose proof (label_rows_steps g rows cols rows Hsh (le_n _)) as (_ & Hres & Hget).
  destruct Hsh as [Hl Hf]. destruct g as [|row0 g']; [simpl in Hl; lia|].
  assert (length row0 = cols) as Hrow0 by (by apply Forall_cons in Hf as [? _]).
  unfold assignRollsToGrid. rewrite Hl, Hrow0.
  eexists. split; [done|]. split; [done|].
  intros r c Hr Hc. specialize (Hget r c Hr Hc).
  destruct (decide (r * cols + c < rows * cols)); [done|nia].
Qed.

(** The same where no cell holds an inherited name. *)
Lemma assignRollsToGrid_plain (g : Grid) rows cols :
  shape rows cols g → 0 < rows →
  (∀ r c, r < rows → c < cols → inherited (to_key (read g r c)) = false) →
  ∃ seats, assignRollsToGrid g = Returned seats ∧
           shape rows cols seats ∧
           ∀ r c, r < rows → c < cols →
                  get2 seats r c = Some (Some (seat_at g cols r c)).
Proof.
  intros Hsh Hrows Hplain.
  destruct (assignRollsToGrid_rect g rows cols Hsh Hrows)
    as (seats & Hret & Hshape & Hget).
  exists seats. split; [done|]. split; [done|]. intros r c Hr Hc.
  destruct (Hget r c Hr Hc) as (s & Hs & _ & Heq).
  by rewrite Hs, (Heq (Hplain r c Hr Hc)).
Qed.

End LabelFacts.

(** ** Rolls: a roll determines the counter name and the number *)

Lemma string_of_uint_no_dash u : has_dash (NilEmpty.string_of_uint u) = false.
Proof. induction u; simpl; done. Qed.

Lemma zeros_no_dash k s :
  has_dash (string_of_list_ascii (replicate k "0"%char) +:+ s) = has_dash s.
Proof. induction k as [|k IH]; simpl; done. Qed.

Lemma has_dash_middle d s : has_dash (d +:+ "-" +:+ s) = true.
Proof.
  induction d as [|a d IH]; simpl; [done|]. rewrite IH. apply orb_true_r.
Qed.

Lemma append_empty_l s : "" +:+ s = s.
Proof. reflexivity. Qed.

Lemma append_dash_inj d1 d2 s1 s2 :
  has_dash s1 = false → has_dash s2 = false →
  d1 +:+ "-" +:+ s1 = d2 +:+ "-" +:+ s2 → d1 = d2 ∧ s1 = s2.
Proof.
  intros H1 H2. revert d2.
  induction d1 as [|a d1 IH]; intros [|b d2]; simpl; rewrite ?append_empty_l;
    intros E.
  - split; [done|]. by injection E.
  - injection E as _ E2. rewrite append_empty_l in E2.
    exfalso. rewrite E2, has_dash_middle in H1. done.
  - injection E as _ E2. rewrite append_empty_l in E2.
    exfalso. rewrite <- E2, has_dash_middle in H2. done.
  - injection E as E1 E2. destruct (IH d2 E2) as [-> ->]. by subst.
Qed.

Lemma decimal_value_zeros k s :
  decimal_value (string_of_list_ascii (replicate k "0"%char) +:+ s)
  = decimal_value s.
Proof.
  induction k as [|k IH]; [done|]. rewrite <- IH. unfold decimal_value. simpl.
  by destruct (NilEmpty.uint_of_string _).
Qed.

Lemma decimal_value_pad n :
  decimal_value (padStart 3 "0"%char (string_of_nat n)) = Some n.
Proof.
  unfold padStart. rewrite decimal_value_zeros.
  unfold decimal_value, string_of_nat. rewrite NilEmpty.usu. simpl.
  by rewrite Unsigned.of_to.
Qed.

Lemma make_roll_inj v1 n1 v2 n2 :
  make_roll v1 n1 = make_roll v2 n2 → to_key v1 = to_key v2 ∧ n1 = n2.
Proof.
  unfold make_roll. intros H.
  apply append_dash_inj in H as [Hk Hp].
  - split; [done|]. pose proof (decimal_value_pad n1) as E.
    rewrite Hp, decimal_value_pad in E. congruence.
  - unfold padStart. rewrite zeros_no_dash. apply string_of_uint_no_dash.
  - unfold padStart. rewrite zeros_no_dash. apply string_of_uint_no_dash.
Qed.

(** ** Counting along the row-major order *)

Lemma occurrences_app k l1 l2 :
  occurrences k (l1 ++ l2) = occurrences k l1 + occurrences k l2.
Proof. unfold occurrences. by rewrite List.filter_app, length_app. Qed.

Lemma occurrences_take_le k l n : occurrences k (take n l) ≤ occurrences k l.
Proof. rewrite <- (take_drop n l) at 2. rewrite occurrences_app. lia. Qed.

Lemma occurrences_take_mono k l n m :
  n ≤ m → occurrences k (take n l) ≤ occurrences k (take m l).
Proof.
  intros H. replace (take n l) with (take n (take m l)).
  - apply occurrences_take_le.
  - rewrite take_take. f_equal. lia.
Qed.

Lemma count_in_app d l1 l2 : count_in d (l1 ++ l2) = count_in d l1 + count_in d l2.
Proof. unfold count_in. by rewrite List.filter_app, length_app. Qed.

Lemma occurrences_solved d l :
  Forall is_Some l → occurrences d l = count_in d l.
Proof.
  induction 1 as [|x l [s ->] _ IH]; [done|].
  change (Some s :: l) with ([Some s] ++ l).
  by rewrite occurrences_app, count_in_app, IH.
Qed.

Lemma count_grid_flat d (g : Grid) : count_grid d g = count_in d (mjoin g).
Proof.
  unfold count_grid. induction g as [|row g IH]; [done|].
  rewrite fmap_cons. simpl. by rewrite count_in_app, IH.
Qed.

(** The [n]-th cell that holds [d], for [n] from 1 to their number. *)
Lemma nth_holder d l n :
  1 ≤ n ≤ count_in d l →
  ∃ i, l !! i = Some (Some d) ∧ count_in d (take (S i) l) = n.
Proof.
  induction l as [|x l IH] using rev_ind; [unfold count_in; simpl; lia|].
  rewrite count_in_app. intros Hn.
  destruct (decide (n ≤ count_in d l)) as [Hle|Hgt].
  - destruct IH as (i & Hi & Hc); [lia|]. exists i.
    pose proof (lookup_lt_Some _ _ _ Hi).
    rewrite lookup_app_l by done. rewrite take_app_le by lia. done.
  - exists (length l). unfold count_in at 2 in Hn. simpl in Hn.
    destruct (holds d x) eqn:E; simpl in Hn; [|lia].
    apply holds_true in E as ->. split.
    + by rewrite list_lookup_middle.
    + rewrite take_ge by (rewrite length_app; simpl; lia).
      rewrite count_in_app. unfold count_in at 2. simpl.
      rewrite String.eqb_refl. simpl. lia.
Qed.

Lemma solved_flat (g : Grid) rows cols :
  shape rows cols g →
  (∀ r c, r < rows → c < cols → ∃ d, read g r c = VStr d) →
  Forall is_Some (mjoin g).
Proof.
  intros Hsh Hall. apply Forall_lookup_2. intros i x Hi.
  destruct Hsh as [Hl Hf].
  apply (join_lookup_Some_same_length cols) in Hi as (r & row & c & Hrow & Hx & _);
    [|done].
  destruct (Hall r c) as [d Hd].
  - rewrite <- Hl. by eapply lookup_lt_Some.
  - rewrite <- (Forall_lookup_1 _ _ _ _ Hf Hrow). by eapply lookup_lt_Some.
  - apply read_VStr in Hd. unfold get2 in Hd. rewrite Hrow, Hx in Hd.
    by exists d; congruence.
Qed.

Lemma occurrences_strict k l i j x :
  i < j → l !! j = Some x → cell_key x = k →
  occurrences k (take (S i) l) < occurrences k (take (S j) l).
Proof.
  intros Hij Hx Hk. rewrite (take_S_r l j x Hx), occurrences_snoc, Hk.
  rewrite String.eqb_refl.
  pose proof (occurrences_take_mono k l (S i) j). lia.
Qed.

Lemma flat_cell (g : Grid) rows cols r c :
  shape rows cols g → r < rows → c < cols →
  ∃ x, mjoin g !! (r * cols + c) = Some x ∧ read g r c = cell_value x.
Proof.
  intros Hsh Hr Hc.
  destruct (shape_cell rows cols g r c Hsh Hr Hc) as (row & x & Hrow & Hx & Hflat).
  exists x. split; [done|]. unfold read, get2. rewrite Hrow, Hx. by destruct x.
Qed.

(** ** The claims about [assignRollsToGrid] *)

Lemma read_inj (g1 g2 : Grid) r c :
  read g1 r c = read g2 r c → get2 g1 r c = get2 g2 r c.
Proof.
  unfold read. destruct (get2 g1 r c) as [[?|]|], (get2 g2 r c) as [[?|]|];
    congruence.
Qed.

(** Two grids of the same dimensions with the same cells are equal. *)
Lemma grid_ext {A : Type} rows cols (g1 g2 : list (list A)) :
  shape rows cols g1 → shape rows cols g2 →
  (∀ r c, r < rows → c < cols → get2 g1 r c = get2 g2 r c) →
  g1 = g2.
Proof.
  intros [Hl1 Hf1] [Hl2 Hf2] Hcells. apply list_eq. intros r.
  destruct (decide (r < rows)) as [Hr|Hr].
  - destruct (lookup_lt_is_Some_2 g1 r) as [row1 E1]; [lia|].
    destruct (lookup_lt_is_Some_2 g2 r) as [row2 E2]; [lia|].
    rewrite E1, E2. f_equal. apply list_eq. intros c.
    pose proof (Forall_lookup_1 _ _ _ _ Hf1 E1) as Hlen1.
    pose proof (Forall_lookup_1 _ _ _ _ Hf2 E2) as Hlen2. simpl in *.
    destruct (decide (c < cols)) as [Hc|Hc].
    + specialize (Hcells r c Hr Hc). unfold get2 in Hcells.
      by rewrite E1, E2 in Hcells.
    + rewrite !lookup_ge_None_2 by lia. done.
  - rewrite !lookup_ge_None_2 by lia. done.
Qed.

Section LabelClaims.
Context {EN : Engine}.

(** C6 as amended (row-major labelling).  On a non-empty grid all of whose
    cells hold a category, none of them under a name that every object
    inherits from [Object.prototype], [assignRollsToGrid] returns a grid of
    seats of the same dimensions; the seat of a cell that holds [d] has the
    roll made of [d], a dash and, padded to 3 digits, the number of cells
    holding [d] among that cell and those before it in row-major order; the
    rolls of two different cells differ; and the numbers used for [d] are
    exactly those from 1 to the number of cells that hold [d]. *)
Theorem assignRollsToGrid_row_major (g : Grid) rows cols :
  shape rows cols g → 0 < rows →
  (∀ r c, r < rows → c < cols → ∃ d, read g r c = VStr d) →
  (∀ r c d, r < rows → c < cols → read g r c = VStr d → inherited d = false) →
  ∃ seats,
    assignRollsToGrid g = Returned seats ∧
    shape rows cols seats ∧
    (∀ r c d, r < rows → c < cols → read g r c = VStr d →
       get2 seats r c
       = Some (Some (mkSeat (VStr d)
           (d +:+ "-" +:+
            padStart 3 "0"%char
              (string_of_nat (count_in d (take (S (r * cols + c)) (mjoin g)))))))) ∧
    (∀ r1 c1 r2 c2 s1 s2,
       get2 seats r1 c1 = Some (Some s1) → get2 seats r2 c2 = Some (Some s2) →
       (r1, c1) ≠ (r2, c2) → roll s1 ≠ roll s2) ∧
    (∀ d n,
       (∃ r c, r < rows ∧ c < cols ∧
               get2 seats r c
               = Some (Some (mkSeat (VStr d) (make_roll (VStr d) n)))) ↔
       1 ≤ n ≤ count_grid d g).
Proof.
  intros Hsh Hrows Hsolved Hnames.
  assert (∀ r c, r < rows → c < cols →
            inherited (to_key (read g r c)) = false) as Hplain.
  { intros r c Hr Hc. destruct (Hsolved r c Hr Hc) as [d Hd].
    rewrite Hd. by apply (Hnames r c). }
  destruct (assignRollsToGrid_plain g rows cols Hsh Hrows Hplain)
    as (seats & Hret & Hshape & Hget).
  pose proof (solved_flat g rows cols Hsh Hsolved) as Hflat.
  exists seats. split; [done|]. split; [done|]. split; [|split].
  - intros r c d Hr Hc Hd. rewrite Hget by done. unfold seat_at. rewrite Hd.
    simpl. rewrite occurrences_solved by (by apply Forall_take). done.
  - intros r1 c1 r2 c2 s1 s2 H1 H2 Hne Hroll.
    assert (r1 < rows ∧ c1 < cols) as [Hr1 Hc1]
      by (apply (shape_get2 rows cols seats r1 c1 Hshape); by rewrite H1).
    assert (r2 < rows ∧ c2 < cols) as [Hr2 Hc2]
      by (apply (shape_get2 rows cols seats r2 c2 Hshape); by rewrite H2).
    rewrite Hget in H1, H2 by done.
    injection H1 as <-. injection H2 as <-. simpl in Hroll.
    apply make_roll_inj in Hroll as [Hk Hn].
    destruct (flat_cell g rows cols r1 c1 Hsh Hr1 Hc1) as (x1 & Hx1 & Hv1).
    destruct (flat_cell g rows cols r2 c2 Hsh Hr2 Hc2) as (x2 & Hx2 & Hv2).
    rewrite Hv1, Hv2 in Hk, Hn. fold (cell_key x1) (cell_key x2) in Hk, Hn.
    destruct (lt_eq_lt_dec (r1 * cols + c1) (r2 * cols + c2)) as [[Hlt|Heq]|Hlt].
    + pose proof (occurrences_strict (cell_key x2) _ _ _ x2 Hlt Hx2 eq_refl).
      rewrite Hk in Hn. lia.
    + apply Hne. assert (r1 = r2) as -> by nia. f_equal. lia.
    + pose proof (occurrences_strict (cell_key x1) _ _ _ x1 Hlt Hx1 eq_refl).
      rewrite <- Hk in Hn. lia.
  - intros d n. rewrite count_grid_flat. split.
    + intros (r & c & Hr & Hc & Hseat). rewrite Hget in Hseat by done.
      injection Hseat as Hd Hroll.
      apply make_roll_inj in Hroll as [_ <-]. rewrite Hd. simpl.
      destruct (flat_cell g rows cols r c Hsh Hr Hc) as (x & Hx & Hv).
      rewrite Hd in Hv. destruct x as [s|]; [|done]. injection Hv as <-.
      split.
      * rewrite (take_S_r _ _ _ Hx), occurrences_snoc. simpl.
        rewrite String.eqb_refl. lia.
      * rewrite <- (occurrences_solved d (mjoin g)) by done.
        apply occurrences_take_le.
    + intros Hn. destruct (nth_holder d (mjoin g) n Hn) as (i & Hi & Hcount).
      destruct Hsh as [Hl Hf].
      pose proof Hi as Hi'.
      apply (join_lookup_Some_same_length cols) in Hi'
        as (r & row & c & Hrow & Hx & ->); [|done].
      assert (r < rows) as Hr by (rewrite <- Hl; by eapply lookup_lt_Some).
      assert (c < cols) as Hc.
      { rewrite <- (Forall_lookup_1 _ _ _ _ Hf Hrow). by eapply lookup_lt_Some. }
      exists r, c. split; [done|]. split; [done|].
      rewrite Hget by done. unfold seat_at.
      assert (read g r c = VStr d) as ->.
      { apply read_VStr. unfold get2. by rewrite Hrow. }
      simpl. rewrite occurrences_solved by (by apply Forall_take).
      by rewrite Hcount.
Qed.


(** C7 (label determinism).  [assignRollsToGrid] takes no random source and
    keeps nothing between calls; its result is a function of the
    categories the cells hold: on two grids of the same dimensions that
    agree cell by cell, however each was obtained, it gives the same
    result. *)
Theorem assignRollsToGrid_deterministic rows cols (g1 g2 : Grid) :
  shape rows cols g1 → shape rows cols g2 →
  (∀ r c, r < rows → c < cols → read g1 r c = read g2 r c) →
  assignRollsToGrid g1 = assignRollsToGrid g2.
Proof.
  intros H1 H2 Hcells. f_equal. apply (grid_ext rows cols); [done..|].
  intros r c Hr Hc. apply read_inj. by apply Hcells.
Qed.

End LabelClaims.

Lemma assignRollsToGrid_row_major_witness :
  ∃ seats,
    assignRollsToGrid [[Some "A"; Some "B"]; [Some "B"; Some "A"]]
    = Returned seats ∧
    get2 seats 1 1 = Some (Some (mkSeat (VStr "A") "A-002")).
Proof.
  destruct (assignRollsToGrid_row_major
              [[Some "A"; Some "B"]; [Some "B"; Some "A"]] 2 2)
    as (seats & Hret & _ & Hroll & _).
  - split; [reflexivity|]. repeat constructor.
  - lia.
  - intros [|[|r]] [|[|c]] Hr Hc; try lia; eexists; reflexivity.
  - intros [|[|r]] [|[|c]] d Hr Hc; try lia; intros [= <-]; reflexivity.
  - exists seats. split; [exact Hret|].
    exact (Hroll 1 1 "A" ltac:(lia) ltac:(lia) eq_refl).
Defined.

(** C6, the claim as stated, fails on a solved 2 by 2 grid one category of
    which is named [__proto__]: reading [counters] under that name gives
    [Object.prototype] and writing to it does nothing, so both cells of
    the category get the roll [__proto__-[object Object]], which is not
    made of a number and is not theirs alone. *)
Lemma assignRollsToGrid_inherited_name :
  shape 2 2 [[Some "__proto__"; Some "B"]; [Some "B"; Some "__proto__"]] ∧
  (∀ r c, r < 2 → c < 2 →
     ∃ d, read [[Some "__proto__"; Some "B"]; [Some "B"; Some "__proto__"]] r c
          = VStr d) ∧
  assignRollsToGrid [[Some "__proto__"; Some "B"]; [Some "B"; Some "__proto__"]]
  = Returned
      [[Some (mkSeat (VStr "__proto__") "__proto__-[object Object]");
        Some (mkSeat (VStr "B") "B-001")];
       [Some (mkSeat (VStr "B") "B-002");
        Some (mkSeat (VStr "__proto__") "__proto__-[object Object]")]] ∧
  make_roll (VStr "__proto__") 1 = "__proto__-001" ∧
  make_roll (VStr "__proto__") 2 = "__proto__-002".
Proof.
  split; [split; [reflexivity|repeat constructor]|].
  split; [|split; [vm_compute; reflexivity|split; reflexivity]].
  intros [|[|r]] [|[|c]] Hr Hc; try lia; eexists; reflexivity.
Qed.



Lemma assignRollsToGrid_deterministic_witness :
  assignRollsToGrid [[Some "A"; Some "B"]] = assignRollsToGrid [[Some "A"; Some "B"]].
Proof.
  apply (assignRollsToGrid_deterministic 1 2).
  - split; [reflexivity|]. repeat constructor.
  - split; [reflexivity|]. repeat constructor.
  - intros r c _ _. reflexivity.
Defined.

(** ** One row of four seats, two categories *)

Section OneRow.
Context {RS : RandomSource}.

Lemma candidates_one m g a :
  sort_desc m (List.filter (positive_count m) (keys m)) = [a] →
  candidates m g = ([a], g).
Proof. intros H. unfold candidates. by rewrite H. Qed.

(** Two candidates are tried in one order or the other, whatever the
    random source does. *)
Lemma candidates_two m g a b :
  sort_desc m (List.filter (positive_count m) (keys m)) = [a; b] →
  ∃ g', candidates m g = ([a; b], g') ∨ candidates m g = ([b; a], g').
Proof.
  intros H. unfold candidates. rewrite H. simpl.
  destruct (random g) as [u g']. destruct (Qltb u threshold); [|by eauto].
  pose proof (sort_random_perm [a; b] g') as Hp.
  destruct (sort_random [a; b] g') as [l g'']. simpl in Hp.
  symmetry in Hp. apply Permutation_length_2_inv in Hp as [->| ->]; eauto.
Qed.

#[local] Arguments candidates : simpl never.
#[local] Arguments dfs : simpl never.

Ltac split_candidates :=
  match goal with
  | |- context [candidates ?m ?g] =>
      first
        [ rewrite (candidates_one m g _ eq_refl)
        | let g' := fresh "g" in
          let H := fresh "H" in
          destruct (candidates_two m g _ _ eq_refl) as (g' & [H|H]);
          rewrite H; clear H ]
  end.

Ltac search_step := rewrite dfs_unfold; simpl; try split_candidates; simpl.

(** C9 (trivial success).  On one row of four seats with counts A:2, B:2
    and the default attempt limit, whatever the random source does, the
    search succeeds after 5 calls of [dfs], without ever backtracking, and
    [tryArrange] returns A,B,A,B or B,A,B,A. *)
Theorem tryArrange_one_row (g : Rand) :
  ∃ st,
    tryArrange_run 1 4 default_attemptLimit [("A", 2%Z); ("B", 2%Z)] g
    = Finished true st ∧
    attempts st = 5%Z ∧
    tryArrange 1 4 default_attemptLimit [("A", 2%Z); ("B", 2%Z)] g
    = Some (grid st) ∧
    (grid st = [[Some "A"; Some "B"; Some "A"; Some "B"]] ∨
     grid st = [[Some "B"; Some "A"; Some "B"; Some "A"]]).
Proof.
  unfold tryArrange, tryArrange_run, default_attemptLimit.
  change (negb (length (make_pool [("A", 2%Z); ("B", 2%Z)]) =? 1 * 4)%nat)
    with false.
  cbv iota. destruct (shuffle _ g) as [pool' g1].
  change (all_cells 1 4) with [(0, 0); (0, 1); (0, 2); (0, 3)].
  change (blank 1 4) with [[@None string; None; None; None]].
  repeat search_step.
  all: eexists; (split; [reflexivity|]); simpl; auto.
Qed.

End OneRow.

(** ** What a caller can tell from a failure *)

Section Failures.
Context {RS : RandomSource} {EN : Engine}.

(** The loop ends without a grid exactly when each of its calls of
    [tryArrange] returned [null]. *)
Lemma try_several_None n rows cols counts :
  ∀ g, (try_several n rows cols counts g).1 = None ↔
       ∀ t, t < n → returned (nth_call t rows cols counts g) = None.
Proof.
  induction n as [|n IH]; intros g; simpl.
  - split; [intros _ t Ht; lia|done].
  - destruct (returned (tryArrange_run rows cols 30000 counts g)) eqn:E; simpl.
    + split; [done|]. intros H. specialize (H 0 ltac:(lia)). simpl in H.
      congruence.
    + rewrite IH. split.
      * intros H [|t] Ht; [done|]. simpl. apply H. lia.
      * intros H t Ht. apply (H (S t)). lia.
Qed.

(** C4 as amended.  A call of [tryArrange] returns a complete grid or
    [null]; [null] is its only failure value, returned at the count check
    and after a failed search alike.  The two failures are told apart by
    [attemptAndRender], which compares the sum of the counts with
    [rows * cols] itself before it calls [tryArrange]: it shows the
    mismatch alert exactly when they differ, and the "not possible" alert
    exactly when they agree and the five calls all returned [null]. *)
Theorem failure_told_apart_by_caller rows cols countsMap attemptLimit g :
  (tryArrange rows cols attemptLimit countsMap g = None ∨
   ∃ grid0, tryArrange rows cols attemptLimit countsMap g = Some grid0 ∧
            shape rows cols grid0 ∧
            ∀ r c, r < rows → c < cols → ∃ d, read grid0 r c = VStr d) ∧
  (∀ g', returned (EarlyReturn g') = None) ∧
  (∀ st, returned (Finished false st) = None) ∧
  ((attemptAndRender rows cols countsMap g).1
   = MismatchAlert (Z.of_nat (rows * cols)) (totalCount countsMap) ↔
   totalCount countsMap ≠ Z.of_nat (rows * cols)) ∧
  ((attemptAndRender rows cols countsMap g).1 = NotPossibleAlert ↔
   totalCount countsMap = Z.of_nat (rows * cols) ∧
   ∀ t, t < 5 → returned (nth_call t rows cols countsMap g) = None).
Proof.
  split; [|split; [done|split; [done|]]].
  - destruct (tryArrange _ _ _ _ _) as [grid0|] eqn:E; [right|by left].
    exists grid0. split; [done|].
    apply tryArrange_sound in E as (_ & cl & Hinv).
    split; [apply (inv_shape _ _ _ _ _ _ Hinv)|].
    intros r c Hr Hc.
    destruct (inv_done _ _ _ _ _ _ Hinv r c Hr Hc) as [d Hd]; [apply not_elem_of_nil|].
    exists d. by apply read_VStr.
  - rewrite <- try_several_None. unfold attemptAndRender.
    destruct (try_several 5 rows cols countsMap g) as [[seating|] g'];
      [destruct (assignRollsToGrid seating)|];
      destruct (Z.eqb_spec (totalCount countsMap) (Z.of_nat (rows * cols)));
      cbn [negb fst]; intuition congruence.
Qed.

End Failures.

(** C4, the claim as stated, fails: on a 2 by 2 grid, counts that sum to
    5, a search that runs into a dead end and a search stopped by its
    attempt limit all give the caller of [tryArrange] the same value. *)
Lemma failure_value_shared :
  tryArrange_run (RS := steady) 2 2 30000 [("A", 3%Z); ("B", 2%Z)] 0
  = @EarlyReturn steady 0 ∧
  tryArrange_run (RS := steady) 2 2 30000 [("A", 3%Z); ("B", 1%Z)] 0
  = @Finished steady false
      (@mkState steady (blank 2 2) [("A", 3%Z); ("B", 1%Z)] 6 5) ∧
  tryArrange_run (RS := steady) 2 2 1 [("A", 2%Z); ("B", 2%Z)] 0
  = @Finished steady false
      (@mkState steady (blank 2 2) [("A", 2%Z); ("B", 2%Z)] 3 4) ∧
  tryArrange (RS := steady) 2 2 30000 [("A", 3%Z); ("B", 2%Z)] 0 = None ∧
  tryArrange (RS := steady) 2 2 30000 [("A", 3%Z); ("B", 1%Z)] 0 = None ∧
  tryArrange (RS := steady) 2 2 1 [("A", 2%Z); ("B", 2%Z)] 0 = None.
Proof. repeat split; vm_compute; reflexivity. Qed.

(** ** Worked examples *)

Example neighbors_corner : neighbors 0 0 2 3 = [(1, 0); (0, 1)].
Proof. reflexivity. Qed.

Example neighbors_single_row : neighbors 0 1 1 4 = [(0, 0); (0, 2)].
Proof. reflexivity. Qed.

Example neighbors_inner : neighbors 1 1 3 3 = [(0, 1); (2, 1); (1, 0); (1, 2)].
Proof. reflexivity. Qed.

Example roll_three_digits : make_roll (VStr "CSE") 3 = "CSE-003".
Proof. reflexivity. Qed.

Example roll_four_digits : make_roll (VStr "A") 1000 = "A-1000".
Proof. reflexivity. Qed.

Example labels_2x2 :
  assignRollsToGrid [[Some "A"; Some "B"]; [Some "B"; Some "A"]]
  = Returned [[Some (mkSeat (VStr "A") "A-001"); Some (mkSeat (VStr "B") "B-001")];
              [Some (mkSeat (VStr "B") "B-002"); Some (mkSeat (VStr "A") "A-002")]].
Proof. reflexivity. Qed.

Example sort_desc_stable :
  sort_desc [("A", 1%Z); ("B", 2%Z); ("C", 1%Z); ("D", 2%Z)] ["A"; "B"; "C"; "D"]
  = ["B"; "D"; "A"; "C"].
Proof. reflexivity. Qed.

Example arrange_2x3_steady :
  tryArrange (RS := steady) 2 3 default_attemptLimit
    [("CSE", 2%Z); ("ECE", 2%Z); ("IT", 2%Z)] 0
  = Some [[Some "CSE"; Some "ECE"; Some "IT"];
          [Some "ECE"; Some "IT"; Some "CSE"]].
Proof. vm_compute. reflexivity. Qed.

Example render_mismatch :
  (attemptAndRender (RS := steady) 2 2 [("A", 3%Z); ("B", 2%Z)] 0).1
  = MismatchAlert 4 5.
Proof. vm_compute. reflexivity. Qed.

Example render_not_possible :
  (attemptAndRender (RS := steady) 2 2 [("A", 3%Z); ("B", 1%Z)] 0).1
  = NotPossibleAlert.
Proof. vm_compute. reflexivity. Qed.

(** ** The theorems with hypotheses, at concrete inputs *)

Lemma tryArrange_mismatch_immediate_witness :
  tryArrange_run (RS := steady) 2 2 default_attemptLimit
    [("A", 3%Z); ("B", 2%Z)] 0 = @EarlyReturn steady 0 ∧
  tryArrange (RS := steady) 2 2 default_attemptLimit
    [("A", 3%Z); ("B", 2%Z)] 0 = None ∧
  attempts_made (tryArrange_run (RS := steady) 2 2 default_attemptLimit
                   [("A", 3%Z); ("B", 2%Z)] 0) = 0%Z.
Proof.
  apply (tryArrange_mismatch_immediate (RS := steady) 2 2
           [("A", 3%Z); ("B", 2%Z)] default_attemptLimit 0).
  - apply (bool_decide_unpack _). vm_compute. reflexivity.
  - repeat constructor; simpl; lia.
  - vm_compute. discriminate.
Defined.

Lemma tryArrange_bounded_witness :
  tryArrange (RS := reversing) 2 2 default_attemptLimit
    [("A", 3%Z); ("B", 1%Z)] 0 = None.
Proof.
  refine (proj2 (proj2 (proj2 (proj2 (proj2
            (tryArrange_bounded (RS := reversing) 2 2
               [("A", 3%Z); ("B", 1%Z)] default_attemptLimit 0 _)))))).
  unfold default_attemptLimit. lia.
Defined.

Lemma tryArrange_ignores_nonpositive_witness :
  ∃ g1, tryArrange_run (RS := steady) 2 2 default_attemptLimit
          [("A", 4%Z); ("B", (-1)%Z)] 0
        = @Finished steady false
            (@mkState steady (blank 2 2) [("A", 4%Z); ("B", (-1)%Z)] 2 g1).
Proof.
  refine (proj2 (proj2 (proj2
            (tryArrange_ignores_nonpositive (RS := steady) 2 2
               [("A", 4%Z); ("B", (-1)%Z)] default_attemptLimit 0 _ _)))).
  - apply (bool_decide_unpack _). vm_compute. reflexivity.
  - unfold default_attemptLimit. lia.
Defined.

(** * Further properties of the code *)

(** ** The search is exhaustive *)

Lemma count_in_mono d (row row' : list (option string)) :
  length row = length row' →
  (∀ c x, row !! c = Some (Some x) → row' !! c = Some (Some x)) →
  count_in d row ≤ count_in d row'.
Proof.
  unfold count_in. revert row'.
  induction row as [|x row IH]; intros [|y row'] Hlen Hext; simplify_eq/=; [lia|].
  specialize (IH row' Hlen (fun c => Hext (S c))).
  destruct x as [s|]; simpl.
  - pose proof (Hext 0 s eq_refl) as Hy. injection Hy as ->. simpl.
    destruct (String.eqb s d); simpl; lia.
  - destruct (holds d y); simpl; lia.
Qed.

Lemma count_grid_mono d (g g' : Grid) rows cols :
  shape rows cols g → shape rows cols g' → extends g g' →
  count_grid d g ≤ count_grid d g'.
Proof.
  unfold count_grid, extends, get2. intros [Hl Hf] [Hl' Hf'].
  rewrite <- Hl in Hl'. clear Hl. revert g' Hl' Hf'.
  induction Hf as [|row g Hrow Hf IH]; intros [|row' g'] Hl' Hf' Hext;
    simplify_eq/=; [lia|].
  apply Forall_cons in Hf' as [Hrow' Hf'].
  pose proof (count_in_mono d row row' ltac:(congruence) (fun c => Hext 0 c)).
  specialize (IH g' ltac:(lia) Hf' (fun r => Hext (S r))). lia.
Qed.

Section Exhaustive.
Context {RS : RandomSource}.
Variables (rows cols : nat) (attemptLimit : Z) (countsMap : Counts).

Lemma try_each_attempts_mono next r c :
  (∀ st1, (attempts st1 <= attempts (next st1).2)%Z) →
  ∀ cand st, (attempts st <= attempts (try_each rows cols next r c cand st).2)%Z.
Proof.
  intros Hnext cand. induction cand as [|d cand IH]; intros st; simpl; [lia|].
  destruct (canPlace rows cols (grid st) r c d); [|apply IH].
  specialize (Hnext (place st r c d)).
  destruct (next (place st r c d)) as [[|] st1]; simpl in *; [lia|].
  specialize (IH (unplace st1 r c d)). simpl in IH. lia.
Qed.

Lemma dfs_attempts_mono rest :
  ∀ st, (attempts st + 1 <= attempts (dfs rows cols attemptLimit rest st).2)%Z.
Proof.
  induction rest as [|[r c] rest IH]; intros st; rewrite dfs_unfold; simpl.
  - destruct (attemptLimit <? attempts st + 1)%Z; simpl; lia.
  - destruct (attemptLimit <? attempts st + 1)%Z; simpl; [lia|].
    etrans; [|apply try_each_attempts_mono]; simpl; [lia|].
    intros st1. specialize (IH st1). lia.
Qed.

(** A category that an arrangement extending the grid puts in the next
    cell still has a positive count left and may be placed there. *)
Lemma wanted_is_candidate r c rest g cl g' d :
  Inv rows cols countsMap ((r, c) :: rest) g cl →
  r < rows → c < cols →
  Arrangement rows cols countsMap g' → extends g g' →
  get2 g' r c = Some (Some d) →
  positive_count cl d = true ∧ canPlace rows cols g r c d = true ∧
  extends (set2 g r c (Some d)) g'.
Proof.
  intros Hinv Hr Hc Harr Hext Hd.
  assert (get2 g r c = Some None) as Hhere
    by (apply (inv_todo _ _ _ _ _ _ Hinv); left).
  assert (extends (set2 g r c (Some d)) g') as Hext'.
  { intros r1 c1 d1. destruct (decide ((r, c) = (r1, c1))) as [[= <- <-]|Hne].
    - rewrite (get2_set2_eq g r c (Some d) None Hhere). by intros [= <-].
    - rewrite get2_set2_ne by done. apply Hext. }
  split; [|split; [|done]].
  - pose proof (count_grid_mono d _ g' rows cols
                  (set2_shape rows cols g r c (Some d) (inv_shape _ _ _ _ _ _ Hinv))
                  (arr_shape _ _ _ _ Harr) Hext') as Hmono.
    rewrite (count_grid_place d g r c d Hhere), String.eqb_refl in Hmono.
    pose proof (arr_count _ _ _ _ Harr d) as Hcount.
    pose proof (inv_tally _ _ _ _ _ _ Hinv d) as Htally.
    apply positive_count_true.
    assert (requested cl d = default 0%Z (lookup_count cl d)) as Hreq by done.
    destruct (lookup_count cl d) as [v|]; simpl in Hreq;
      [exists v; split; [done|lia]|lia].
  - apply canPlace_true. intros [r1 c1] Hn Hg. simpl in Hg.
    apply elem_of_neighbors in Hn as (_ & _ & Hadj); [|done..].
    apply (arr_adj _ _ _ _ Harr (r, c) (r1, c1) d Hadj); [done|].
    by apply Hext.
Qed.

Lemma try_each_complete next r c rest g' d :
  (∀ st1, Inv rows cols countsMap rest (grid st1) (countsLeft st1) →
          outcome_ok rows cols countsMap (grid st1) (countsLeft st1) (next st1)) →
  (∀ st1, (attempts st1 <= attempts (next st1).2)%Z) →
  (∀ st1 st2, Inv rows cols countsMap rest (grid st1) (countsLeft st1) →
              next st1 = (false, st2) → (attempts st2 <= attemptLimit)%Z →
              extends (grid st1) g' → False) →
  Arrangement rows cols countsMap g' → get2 g' r c = Some (Some d) →
  (r, c) ∉ rest → r < rows → c < cols →
  ∀ cand st st',
    d ∈ cand →
    (∀ e, e ∈ cand → positive_count (countsLeft st) e = true) →
    Inv rows cols countsMap ((r, c) :: rest) (grid st) (countsLeft st) →
    extends (grid st) g' →
    try_each rows cols next r c cand st = (false, st') →
    (attempts st' <= attemptLimit)%Z → False.
Proof.
  intros Hsound Hmono Hcomp Harr Hd Hfresh Hr Hc cand.
  induction cand as [|e cand IH]; intros st st' Hin Hpos Hinv Hext; simpl;
    [by apply elem_of_nil in Hin|].
  destruct (wanted_is_candidate r c rest _ _ g' d Hinv Hr Hc Harr Hext Hd)
    as (_ & Hcan & Hext').
  assert (∀ e0, e0 ∈ cand → positive_count (countsLeft st) e0 = true) as Hpos'
    by (intros e0 He0; apply Hpos; by right).
  destruct (canPlace rows cols (grid st) r c e) eqn:Hcane.
  - assert (positive_count (countsLeft st) e = true) as Hpe by (apply Hpos; left).
    pose proof (Inv_place rows cols countsMap r c rest _ _ e Hinv Hfresh Hr Hc
                  Hcane Hpe) as Hplaced.
    pose proof (Hsound (place st r c e) Hplaced) as Hs.
    pose proof (Hcomp (place st r c e)) as Hc'.
    destruct (next (place st r c e)) as [[|] st1] eqn:En; [done|].
    simpl in Hs. destruct Hs as [Hg Hcl].
    destruct (unplace_restores st st1 r c e) as [Eg Ec]; [|done..|].
    { apply (inv_todo _ _ _ _ _ _ Hinv). left. }
    intros Hrun Hle.
    destruct (decide (e = d)) as [->|Hne].
    + apply (Hc' st1 Hplaced eq_refl); [|done].
      pose proof (try_each_attempts_mono next r c Hmono cand (unplace st1 r c d)) as Hm.
      rewrite Hrun in Hm. simpl in Hm. lia.
    + apply (IH (unplace st1 r c e) st'); rewrite ?Eg, ?Ec; try done.
      apply elem_of_cons in Hin as [->|Hin]; done.
  - destruct (decide (e = d)) as [->|Hne]; [congruence|].
    apply IH; try done. apply elem_of_cons in Hin as [->|Hin]; done.
Qed.

Lemma dfs_complete rest g' :
  Arrangement rows cols countsMap g' →
  NoDup rest → (∀ r c, (r, c) ∈ rest → r < rows ∧ c < cols) →
  ∀ st st',
    Inv rows cols countsMap rest (grid st) (countsLeft st) →
    extends (grid st) g' →
    dfs rows cols attemptLimit rest st = (false, st') →
    (attempts st' <= attemptLimit)%Z → False.
Proof.
  intros Harr. induction rest as [|[r c] rest IH]; intros Hnd Hin st st' Hinv Hext;
    rewrite dfs_unfold; simpl.
  - destruct (Z.ltb_spec attemptLimit (attempts st + 1)); [|done].
    intros [= <-]. simpl. lia.
  - destruct (Z.ltb_spec attemptLimit (attempts st + 1)).
    { intros [= <-]. simpl. lia. }
    apply NoDup_cons in Hnd as [Hfresh Hnd].
    destruct (Hin r c) as [Hr Hc]; [left|].
    assert (∀ r1 c1, (r1, c1) ∈ rest → r1 < rows ∧ c1 < cols) as Hin'
      by (intros r1 c1 H1; apply Hin; by right).
    destruct (arr_full _ _ _ _ Harr r c Hr Hc) as [d Hd].
    destruct (wanted_is_candidate r c rest _ _ g' d Hinv Hr Hc Harr Hext Hd)
      as (Hpos & _ & _).
    refine (try_each_complete _ r c rest g' d _ _ _ Harr Hd Hfresh Hr Hc _
              (mkState _ _ _ _) st' _ _ Hinv Hext).
    + intros st1. by apply dfs_sound.
    + intros st1. pose proof (dfs_attempts_mono rest st1). lia.
    + intros st1 st2 H1 H2 H3 H4. by apply (IH Hnd Hin' st1 st2).
    + rewrite candidates_perm, list_elem_of_In, filter_In. split; [|done].
      apply positive_count_true in Hpos as (v & Hv & _).
      apply list_elem_of_In. clear -Hv.
      induction (countsLeft st) as [|[k w] m IHm]; [done|]. simpl in Hv.
      unfold keys. rewrite fmap_cons. simpl.
      destruct (String.eqb k d) eqn:E; [apply String.eqb_eq in E as ->; left|].
      right. by apply IHm.
    + intros e. apply candidates_positive.
Qed.

End Exhaustive.

Section SolverFacts.
Context {RS : RandomSource}.

Lemma Inv_blank rows cols countsMap :
  Inv rows cols countsMap (all_cells rows cols) (blank rows cols) countsMap.
Proof.
  split.
  - apply blank_shape.
  - intros r c [Hr Hc]%elem_of_all_cells. by apply get2_blank.
  - intros r c Hr Hc Hout. destruct Hout. by apply elem_of_all_cells.
  - intros p q d _ Hp.
    assert (is_Some (@get2 (option string) (blank rows cols) p.1 p.2)) as Hs
      by (by rewrite Hp).
    apply (shape_get2 rows cols _ _ _ (blank_shape rows cols)) in Hs as [? ?].
    rewrite get2_blank in Hp by done. done.
  - intros d. rewrite count_grid_blank. lia.
  - intros d. lia.
  - by rewrite length_all_cells.
Qed.

Lemma extends_blank rows cols g' : extends (blank rows cols) g'.
Proof.
  intros r c d Hg.
  assert (is_Some (@get2 (option string) (blank rows cols) r c)) as Hs
    by (by rewrite Hg).
  apply (shape_get2 rows cols _ _ _ (blank_shape rows cols)) in Hs as [? ?].
  rewrite get2_blank in Hg by done. done.
Qed.

(** What the search leaves behind, read off a finished run. *)
Lemma run_outcome rows cols attemptLimit countsMap g ok st :
  tryArrange_run rows cols attemptLimit countsMap g = Finished ok st →
  length (make_pool countsMap) = rows * cols ∧
  ∃ g1, dfs rows cols attemptLimit (all_cells rows cols)
            (mkState (blank rows cols) countsMap 0 g1) = (ok, st).
Proof.
  unfold tryArrange_run.
  destruct (Nat.eqb_spec (length (make_pool countsMap)) (rows * cols)) as [Hlen|];
    [simpl|done].
  destruct (shuffle _ g) as [pool' g1].
  destruct (dfs _ _ _ _ _) as [ok' st'] eqn:E. intros [= <- <-]. eauto.
Qed.

(** X1 (the search is exhaustive).  When [dfs(0)] has returned and the
    attempt counter has not passed [attemptLimit], [tryArrange] has decided
    the request: the search succeeded exactly if some arrangement exists,
    and then the grid it returns is one.  A failure below the limit proves
    that no seating meets the request. *)
Theorem tryArrange_decides rows cols countsMap attemptLimit g ok st :
  NoDup (keys countsMap) →
  tryArrange_run rows cols attemptLimit countsMap g = Finished ok st →
  (attempts st <= attemptLimit)%Z →
  (ok = true ↔ ∃ g', Arrangement rows cols countsMap g') ∧
  (ok = true → Arrangement rows cols countsMap (grid st)).
Proof.
  intros Hkeys Hrun Hle.
  assert (ok = true → Arrangement rows cols countsMap (grid st)) as Hsound.
  { intros ->.
    assert (tryArrange rows cols attemptLimit countsMap g = Some (grid st)) as Ht
      by (unfold tryArrange; by rewrite Hrun).
    pose proof (fun d => final_count _ _ _ _ _ _ d Hkeys Ht) as Hcount.
    apply tryArrange_sound in Ht as (_ & cl & Hinv). split.
    - apply (inv_shape _ _ _ _ _ _ Hinv).
    - intros r c Hr Hc. apply (inv_done _ _ _ _ _ _ Hinv r c Hr Hc).
      apply not_elem_of_nil.
    - apply (inv_adj _ _ _ _ _ _ Hinv).
    - intros d. apply Hcount. }
  split; [|done]. split; [by eauto|].
  intros [g' Harr]. destruct ok; [done|exfalso].
  apply run_outcome in Hrun as (_ & g1 & Hdfs).
  eapply (dfs_complete rows cols attemptLimit countsMap (all_cells rows cols) g'
            Harr (NoDup_all_cells rows cols)
            (λ r c, proj1 (elem_of_all_cells rows cols r c))
            (mkState (blank rows cols) countsMap 0 g1) st); simpl.
  - apply Inv_blank.
  - apply extends_blank.
  - done.
  - done.
Qed.

(** X2 (backtracking undoes itself).  When the search fails, for whatever
    reason, [grid] is again all [null] and [countsLeft] again equal to
    [countsMap]: every placement made was taken back. *)
Theorem tryArrange_failure_restores rows cols countsMap attemptLimit g st :
  tryArrange_run rows cols attemptLimit countsMap g = Finished false st →
  grid st = blank rows cols ∧ countsLeft st = countsMap.
Proof.
  intros (_ & g1 & Hdfs)%run_outcome.
  pose proof (dfs_sound rows cols attemptLimit countsMap (all_cells rows cols)
                (NoDup_all_cells rows cols)
                (λ r c, proj1 (elem_of_all_cells rows cols r c))
                (mkState (blank rows cols) countsMap 0 g1)
                (Inv_blank rows cols countsMap)) as Hs.
  rewrite Hdfs in Hs. exact Hs.
Qed.

End SolverFacts.

Lemma tryArrange_decides_witness :
  (false = true ↔ ∃ g', Arrangement 2 2 [("A", 3%Z); ("B", 1%Z)] g') ∧
  (false = true →
   Arrangement 2 2 [("A", 3%Z); ("B", 1%Z)] (blank 2 2)).
Proof.
  apply (tryArrange_decides (RS := steady) 2 2 [("A", 3%Z); ("B", 1%Z)] 30000 0
           false (@mkState steady (blank 2 2) [("A", 3%Z); ("B", 1%Z)] 6 5)).
  - apply (bool_decide_unpack _). vm_compute. reflexivity.
  - vm_compute. reflexivity.
  - simpl. lia.
Defined.

Lemma tryArrange_failure_restores_witness :
  (blank 2 2 : Grid) = blank 2 2 ∧
  ([("A", 2%Z); ("B", 2%Z)] : Counts) = [("A", 2%Z); ("B", 2%Z)].
Proof.
  apply (tryArrange_failure_restores (RS := steady) 2 2 [("A", 2%Z); ("B", 2%Z)] 1 0
           (@mkState steady (blank 2 2) [("A", 2%Z); ("B", 2%Z)] 3 4)).
  vm_compute. reflexivity.
Defined.

(** ** [neighbors], [canPlace], [shuffle] and the candidates *)

(** X3 (neighbours).  For a cell inside the grid, [neighbors] lists exactly
    the cells inside the grid that share an edge with it, each once, never
    the cell itself, and being a neighbour is mutual. *)
Theorem neighbors_exact r c rows cols :
  r < rows → c < cols →
  (∀ r' c', (r', c') ∈ neighbors r c rows cols ↔
            r' < rows ∧ c' < cols ∧ adjacent (r, c) (r', c')) ∧
  NoDup (neighbors r c rows cols) ∧
  ((r, c) ∉ neighbors r c rows cols) ∧
  (∀ r' c', (r', c') ∈ neighbors r c rows cols →
            (r, c) ∈ neighbors r' c' rows cols).
Proof.
  intros Hr Hc. split; [|split; [|split]].
  - intros r' c'. by apply elem_of_neighbors.
  - unfold neighbors.
    destruct (Nat.ltb_spec 0 r), (Nat.ltb_spec r (rows - 1)),
      (Nat.ltb_spec 0 c), (Nat.ltb_spec c (cols - 1)); simpl;
      repeat (apply NoDup_cons; split;
              [rewrite ?elem_of_cons, ?elem_of_nil; intros H';
               repeat destruct H' as [H'|H']; try done; inversion H'; lia|]);
      apply NoDup_nil_2.
  - intros (_ & _ & Hadj)%elem_of_neighbors; [|done..].
    unfold adjacent in Hadj. simpl in Hadj. lia.
  - intros r' c' (Hr' & Hc' & Hadj)%elem_of_neighbors; [|done..].
    apply elem_of_neighbors; [done..|]. split; [done|]. split; [done|].
    unfold adjacent in *. simpl in *. lia.
Qed.

Lemma neighbors_exact_witness :
  NoDup (neighbors 0 0 2 3) ∧ ((0, 0) ∉ neighbors 0 0 2 3).
Proof.
  destruct (neighbors_exact 0 0 2 3) as (_ & Hnd & Hself & _).
  - lia.
  - lia.
  - exact (conj Hnd Hself).
Defined.

(** X4 ([canPlace]).  For a cell inside the grid, a category may be placed
    exactly if no cell inside the grid that shares an edge with it holds
    that category; unassigned neighbours never stand in the way. *)
Theorem canPlace_exact rows cols (g : Grid) r c d :
  r < rows → c < cols →
  (canPlace rows cols g r c d = true ↔
   ∀ r' c', r' < rows → c' < cols → adjacent (r, c) (r', c') →
            read g r' c' ≠ VStr d).
Proof.
  intros Hr Hc. rewrite canPlace_true. split.
  - intros H r' c' Hr' Hc' Hadj Hread%read_VStr.
    apply (H (r', c')); [|done]. by apply elem_of_neighbors.
  - intros H [r' c'] (Hr' & Hc' & Hadj)%elem_of_neighbors Hg; [|done..].
    apply (H r' c' Hr' Hc' Hadj). by apply read_VStr.
Qed.

Lemma canPlace_exact_witness :
  canPlace 1 2 [[Some "A"; None]] 0 1 "B" = true ↔
  ∀ r' c', r' < 1 → c' < 2 → adjacent (0, 1) (r', c') →
           read [[Some "A"; None]] r' c' ≠ VStr "B".
Proof. apply (canPlace_exact 1 2 [[Some "A"; None]] 0 1 "B"); lia. Defined.

Section RandomFacts.
Context {RS : RandomSource}.

(** X5 ([shuffle]).  Whatever numbers are drawn, the shuffled pool is a
    rearrangement of the pool: nothing is lost, added or duplicated. *)
Theorem shuffle_rearranges (a : list string) (g : Rand) :
  (shuffle a g).1 ≡ₚ a ∧ length (shuffle a g).1 = length a.
Proof.
  pose proof (shuffle_from_perm (length a - 1) a g) as Hp.
  split; [exact Hp|]. by rewrite Hp.
Qed.

(** X6 (candidates).  Whatever the random source does, the categories
    tried at a cell are exactly those with a positive count left, and each
    is tried once: randomness changes the order only. *)
Theorem candidates_exact (m : Counts) (g : Rand) :
  (∀ d, d ∈ (candidates m g).1 ↔ positive_count m d = true) ∧
  (NoDup (keys m) → NoDup (candidates m g).1).
Proof.
  split.
  - intros d. split; [apply candidates_positive|].
    intros Hpos. rewrite candidates_perm, list_elem_of_In, filter_In.
    split; [|done]. apply positive_count_true in Hpos as (v & Hv & _).
    apply list_elem_of_In. clear -Hv.
    induction m as [|[k w] m IHm]; [done|]. simpl in Hv.
    unfold keys. rewrite fmap_cons. simpl.
    destruct (String.eqb k d) eqn:E; [apply String.eqb_eq in E as ->; left|].
    right. by apply IHm.
  - intros Hnd. rewrite candidates_perm. apply NoDup_ListNoDup.
    apply List.NoDup_filter. by apply NoDup_ListNoDup.
Qed.

End RandomFacts.

Lemma candidates_exact_witness :
  NoDup (candidates (RS := reversing) [("A", 1%Z); ("B", 0%Z); ("C", 2%Z)] 0).1.
Proof.
  apply (proj2 (candidates_exact (RS := reversing)
                  [("A", 1%Z); ("B", 0%Z); ("C", 2%Z)] 0)).
  apply (bool_decide_unpack _). vm_compute. reflexivity.
Defined.

(** ** The caller: [attemptAndRender] with [tryArrange] and
    [assignRollsToGrid] *)

Lemma seat_at_roll_distinct (g : Grid) rows cols r1 c1 r2 c2 :
  shape rows cols g → r1 < rows → c1 < cols → r2 < rows → c2 < cols →
  (r1, c1) ≠ (r2, c2) →
  roll (seat_at g cols r1 c1) ≠ roll (seat_at g cols r2 c2).
Proof.
  intros Hsh Hr1 Hc1 Hr2 Hc2 Hne Hroll. simpl in Hroll.
  apply make_roll_inj in Hroll as [Hk Hn].
  destruct (flat_cell g rows cols r1 c1 Hsh Hr1 Hc1) as (x1 & Hx1 & Hv1).
  destruct (flat_cell g rows cols r2 c2 Hsh Hr2 Hc2) as (x2 & Hx2 & Hv2).
  rewrite Hv1, Hv2 in Hk, Hn. fold (cell_key x1) (cell_key x2) in Hk, Hn.
  destruct (lt_eq_lt_dec (r1 * cols + c1) (r2 * cols + c2)) as [[Hlt|Heq]|Hlt].
  - pose proof (occurrences_strict (cell_key x2) _ _ _ x2 Hlt Hx2 eq_refl).
    rewrite Hk in Hn. lia.
  - apply Hne. assert (r1 = r2) as -> by nia. f_equal. lia.
  - pose proof (occurrences_strict (cell_key x1) _ _ _ x1 Hlt Hx1 eq_refl).
    rewrite <- Hk in Hn. lia.
Qed.

(** A category that is not a name of the counts is requested 0 times, and
    the search places none of it. *)
Lemma requested_in_keys (m : Counts) d : requested m d ≠ 0%Z → d ∈ keys m.
Proof.
  unfold requested, keys. induction m as [|[k v] m IH]; simpl; [done|].
  destruct (String.eqb k d) eqn:E.
  - apply String.eqb_eq in E as ->. intros _. left.
  - intros H. right. by apply IH.
Qed.

Lemma held_category rows cols countsMap rest (g : Grid) cl r c d :
  Inv rows cols countsMap rest g cl →
  get2 g r c = Some (Some d) → d ∈ keys countsMap.
Proof.
  intros Hinv Hd%count_grid_pos. apply requested_in_keys.
  pose proof (inv_tally _ _ _ _ _ _ Hinv d).
  pose proof (inv_floor _ _ _ _ _ _ Hinv d). lia.
Qed.

Section CallerFacts.
Context {RS : RandomSource} {EN : Engine}.

(** X7 (the two count checks).  For counts none of which is negative, the
    check [attemptAndRender] makes before calling [tryArrange] implies the
    one [tryArrange] makes itself: once the sums agree, [tryArrange] never
    returns at its first [return null], it always runs the search. *)
Theorem caller_check_suffices rows cols counts attemptLimit g :
  NoDup (keys counts) →
  Forall (fun kv => (0 <= kv.2)%Z) counts →
  totalCount counts = Z.of_nat (rows * cols) →
  ∃ ok st, tryArrange_run rows cols attemptLimit counts g = Finished ok st ∧
           (1 <= attempts st)%Z.
Proof.
  intros Hkeys Hnn Hsum. unfold tryArrange_run.
  destruct (Nat.eqb_spec (length (make_pool counts)) (rows * cols)) as [Hlen|Hne].
  - simpl. destruct (shuffle _ g) as [pool' g1].
    pose proof (dfs_attempts_mono rows cols attemptLimit (all_cells rows cols)
                  (mkState (blank rows cols) counts 0 g1)) as Hm.
    destruct (dfs _ _ _ _ _) as [ok st]. exists ok, st. split; [done|].
    simpl in Hm. lia.
  - exfalso. apply Hne. apply Nat2Z.inj.
    by rewrite length_make_pool, sum_positive_totalCount.
Qed.

(** X8 (the retry loop).  The loop of [attemptAndRender] hands on the grid
    of the first call of [tryArrange] that returns one, with the random
    source as that call left it: the calls before it all returned [null]
    and no call is made after it. *)
Theorem try_several_first_success n rows cols counts :
  ∀ g grid0 g',
    try_several n rows cols counts g = (Some grid0, g') ↔
    ∃ t, t < n ∧
         (∀ t', t' < t → returned (nth_call t' rows cols counts g) = None) ∧
         returned (nth_call t rows cols counts g) = Some grid0 ∧
         g' = rng_after (nth_call t rows cols counts g).
Proof.
  induction n as [|n IH]; intros g grid0 g'; simpl.
  - split; [done|]. intros (t & Ht & _). lia.
  - destruct (returned (tryArrange_run rows cols 30000 counts g)) as [seating|] eqn:E.
    + split.
      * intros [= <- <-]. exists 0. split; [lia|]. split; [intros t' Ht'; lia|].
        done.
      * intros ([|t] & Ht & Hbefore & Hret & ->); simpl in *.
        -- congruence.
        -- specialize (Hbefore 0 ltac:(lia)). simpl in Hbefore. congruence.
    + rewrite IH. split.
      * intros (t & Ht & Hbefore & Hret & ->). exists (S t).
        split; [lia|]. split; [|done].
        intros [|t'] Ht'; [done|]. simpl. apply Hbefore. lia.
      * intros ([|t] & Ht & Hbefore & Hret & ->); simpl in *; [congruence|].
        exists t. split; [lia|]. split; [|done].
        intros t' Ht'. apply (Hbefore (S t')). lia.
Qed.

Lemma try_several_Some n rows cols counts g grid0 :
  (try_several n rows cols counts g).1 = Some grid0 →
  ∃ g0, tryArrange rows cols 30000 counts g0 = Some grid0.
Proof.
  revert g. induction n as [|n IH]; intros g; simpl; [done|].
  destruct (returned (tryArrange_run rows cols 30000 counts g)) as [seating|] eqn:E;
    [|apply IH].
  simpl. intros [= <-]. exists g. unfold tryArrange. by rewrite E.
Qed.

(** What [assignRollsToGrid] makes of a grid returned by [tryArrange], for
    counts under names that are not inherited. *)
Lemma arranged_seats rows cols counts attemptLimit g0 seating seats :
  (∀ d, d ∈ keys counts → inherited d = false) →
  tryArrange rows cols attemptLimit counts g0 = Some seating →
  assignRollsToGrid seating = Returned seats →
  0 < rows ∧
  shape rows cols seats ∧
  (∀ r c, r < rows → c < cols →
     ∃ d n, d ∈ keys counts ∧ 1 ≤ n ∧
            get2 seats r c
            = Some (Some (mkSeat (VStr d) (make_roll (VStr d) n)))) ∧
  (∀ r c r' c' s s',
     adjacent (r, c) (r', c') →
     get2 seats r c = Some (Some s) → get2 seats r' c' = Some (Some s') →
     dept s ≠ dept s') ∧
  (∀ r1 c1 r2 c2 s1 s2,
     get2 seats r1 c1 = Some (Some s1) → get2 seats r2 c2 = Some (Some s2) →
     (r1, c1) ≠ (r2, c2) → roll s1 ≠ roll s2).
Proof.
  intros Hnames Hrun Ea.
  apply tryArrange_sound in Hrun as (_ & cl & Hinv).
  pose proof (inv_shape _ _ _ _ _ _ Hinv) as Hsh.
  assert (0 < rows) as Hrows.
  { destruct Hsh as [Hl _]. destruct seating; [done|]. simpl in Hl. lia. }
  assert (∀ r c, r < rows → c < cols →
            ∃ d, d ∈ keys counts ∧ read seating r c = VStr d) as Hfull.
  { intros r c Hr Hc.
    destruct (inv_done _ _ _ _ _ _ Hinv r c Hr Hc) as [d Hd]; [apply not_elem_of_nil|].
    exists d. split; [by eapply held_category|by apply read_VStr]. }
  destruct (assignRollsToGrid_plain seating rows cols Hsh Hrows)
    as (seats' & Hret & Hshape & Hget).
  { intros r c Hr Hc. destruct (Hfull r c Hr Hc) as (d & Hd & ->).
    by apply Hnames. }
  rewrite Ea in Hret. injection Hret as <-.
  assert (∀ r c s, get2 seats r c = Some (Some s) →
            r < rows ∧ c < cols ∧ s = seat_at seating cols r c) as Hseat.
  { intros r c s Hs.
    assert (r < rows ∧ c < cols) as [Hr Hc]
      by (apply (shape_get2 rows cols seats r c Hshape); by rewrite Hs).
    rewrite Hget in Hs by done. by injection Hs as <-. }
  split; [done|]. split; [done|]. split; [|split].
  - intros r c Hr Hc. destruct (Hfull r c Hr Hc) as (d & Hin & Hd).
    destruct (flat_cell seating rows cols r c Hsh Hr Hc) as (x & Hx & Hv).
    exists d. eexists. split; [done|]. split; [|rewrite Hget by done].
    2:{ unfold seat_at. rewrite Hd. reflexivity. }
    rewrite (take_S_r _ _ _ Hx), occurrences_snoc.
    unfold cell_key. rewrite <- Hv, Hd. simpl. rewrite String.eqb_refl. lia.
  - intros r c r' c' s s' Hadj Hs Hs'.
    apply Hseat in Hs as (Hr & Hc & ->). apply Hseat in Hs' as (Hr' & Hc' & ->).
    simpl.
    destruct (Hfull r c Hr Hc) as (d & _ & Hd). rewrite Hd.
    intros Heq. symmetry in Heq. apply read_VStr in Heq, Hd.
    by apply (inv_adj _ _ _ _ _ _ Hinv (r, c) (r', c') d).
  - intros r1 c1 r2 c2 s1 s2 H1 H2 Hne.
    apply Hseat in H1 as (Hr1 & Hc1 & ->). apply Hseat in H2 as (Hr2 & Hc2 & ->).
    by apply (seat_at_roll_distinct seating rows cols).
Qed.

(** X9 (what is rendered).  For counts under names that are not inherited
    from [Object.prototype] (the names of the departments are not):
    whenever [attemptAndRender] renders a seating, the counts sum to
    [rows * cols], the seating has [rows] rows of [cols] seats, every seat
    carries a department and a roll made of that department and a number
    from 1 on, seats that share an edge are of different departments, and
    no two seats have the same roll. *)
Theorem rendered_seating_valid rows cols counts g seats :
  (∀ d, d ∈ keys counts → inherited d = false) →
  (attemptAndRender rows cols counts g).1 = Rendered seats →
  totalCount counts = Z.of_nat (rows * cols) ∧
  0 < rows ∧
  shape rows cols seats ∧
  (∀ r c, r < rows → c < cols →
     ∃ d n, 1 ≤ n ∧
            get2 seats r c
            = Some (Some (mkSeat (VStr d) (make_roll (VStr d) n)))) ∧
  (∀ r c r' c' s s',
     adjacent (r, c) (r', c') →
     get2 seats r c = Some (Some s) → get2 seats r' c' = Some (Some s') →
     dept s ≠ dept s') ∧
  (∀ r1 c1 r2 c2 s1 s2,
     get2 seats r1 c1 = Some (Some s1) → get2 seats r2 c2 = Some (Some s2) →
     (r1, c1) ≠ (r2, c2) → roll s1 ≠ roll s2).
Proof.
  intros Hnames. unfold attemptAndRender.
  destruct (Z.eqb_spec (totalCount counts) (Z.of_nat (rows * cols))) as [Hsum|];
    [|done]. cbn [negb].
  destruct (try_several 5 rows cols counts g) as [[seating|] g'] eqn:Et; [|done].
  destruct (assignRollsToGrid seating) as [seats'|] eqn:Ea; [|done].
  cbn [fst]. intros [= ->].
  destruct (try_several_Some 5 rows cols counts g seating) as [g0 Hrun];
    [by rewrite Et|].
  destruct (arranged_seats _ _ _ _ _ _ _ Hnames Hrun Ea)
    as (Hrows & Hshape & Hcells & Hadj & Hrolls).
  split; [done|]. split; [done|]. split; [done|]. split; [|done].
  intros r c Hr Hc. destruct (Hcells r c Hr Hc) as (d & n & _ & Hn & Hs).
  by exists d, n.
Qed.

End CallerFacts.

Lemma caller_check_suffices_witness :
  ∃ ok st,
    tryArrange_run (RS := steady) 2 2 30000 [("A", 3%Z); ("B", 1%Z)] 0
    = Finished ok st ∧ (1 <= attempts st)%Z.
Proof.
  apply (caller_check_suffices (RS := steady) 2 2 [("A", 3%Z); ("B", 1%Z)] 30000 0).
  - apply (bool_decide_unpack _). vm_compute. reflexivity.
  - repeat constructor; simpl; lia.
  - vm_compute. reflexivity.
Defined.

Lemma rendered_seating_valid_witness :
  totalCount [("A", 2%Z); ("B", 2%Z)] = Z.of_nat (2 * 2) ∧ 0 < 2.
Proof.
  destruct (rendered_seating_valid (RS := steady) 2 2 [("A", 2%Z); ("B", 2%Z)] 0
              [[Some (mkSeat (VStr "A") "A-001"); Some (mkSeat (VStr "B") "B-001")];
               [Some (mkSeat (VStr "B") "B-002"); Some (mkSeat (VStr "A") "A-002")]])
    as (Hsum & Hrows & _).
  - intros d Hd.
    apply elem_of_cons in Hd as [->|Hd]; [reflexivity|].
    apply elem_of_cons in Hd as [->|Hd]; [reflexivity|].
    by apply elem_of_nil in Hd.
  - vm_compute. reflexivity.
  - exact (conj Hsum Hrows).
Defined.

(** ** [generateStudentList] and the rolls *)

Lemma elem_of_students counts s :
  s ∈ generateStudentList counts ↔
  ∃ d n, d ∈ departments ∧ 1 ≤ n ∧ (Z.of_nat n <= requested counts d)%Z ∧
         s = mkSeat (VStr d) (make_roll (VStr d) n).
Proof.
  unfold generateStudentList. rewrite list_elem_of_bind. split.
  - intros (d & Hs & Hd). apply list_elem_of_fmap in Hs as (n & -> & Hn).
    apply elem_of_seq in Hn. exists d, n. repeat split; [done|lia|lia].
  - intros (d & n & Hd & Hn1 & Hn2 & ->). exists d. split; [|done].
    apply list_elem_of_fmap. exists n. split; [done|]. apply elem_of_seq. lia.
Qed.

Lemma NoDup_students counts : NoDup (generateStudentList counts).
Proof.
  unfold generateStudentList. apply NoDup_bind.
  - intros d1 d2 s _ _ H1 H2.
    apply list_elem_of_fmap in H1 as (? & -> & _).
    apply list_elem_of_fmap in H2 as (? & [= ->] & _). done.
  - intros d _. apply NoDup_fmap_2; [|apply NoDup_seq].
    intros n1 n2 [= H]. by apply make_roll_inj in H as [_ ?].
  - apply (bool_decide_unpack _). vm_compute. reflexivity.
Qed.

(** X11 ([generateStudentList]).  The list holds, for each of the five
    departments and each number from 1 to the count given for it (none if
    the count is missing, zero or negative), one student with that
    department and the roll made of it and of the number, and nothing else;
    no two students have the same roll; its length is the sum of the
    positive counts of the five departments. *)
Theorem generateStudentList_exact counts :
  (∀ s, s ∈ generateStudentList counts ↔
        ∃ d n, d ∈ departments ∧ 1 ≤ n ∧ (Z.of_nat n <= requested counts d)%Z ∧
               s = mkSeat (VStr d) (make_roll (VStr d) n)) ∧
  NoDup (roll <$> generateStudentList counts) ∧
  length (generateStudentList counts)
  = sum_list ((fun d => Z.to_nat (requested counts d)) <$> departments).
Proof.
  split; [apply elem_of_students|]. split.
  - apply NoDup_fmap_2_strong; [|apply NoDup_students].
    intros s1 s2 (d1 & n1 & _ & _ & _ & ->)%elem_of_students
      (d2 & n2 & _ & _ & _ & ->)%elem_of_students H. simpl in H.
    apply make_roll_inj in H as [Hd ->]. simpl in Hd. by subst.
  - unfold generateStudentList. induction departments as [|d ds IH]; [done|].
    rewrite bind_cons, length_app, length_fmap, length_seq, IH. done.
Qed.


(** ** The seats of a returned grid are the student list *)

Lemma count_in_take_bounds d (l : list (option string)) i :
  Forall is_Some l → l !! i = Some (Some d) →
  1 ≤ count_in d (take (S i) l) ≤ count_in d l.
Proof.
  intros Hall Hi. split.
  - rewrite (take_S_r _ _ _ Hi), count_in_app. unfold count_in at 2. simpl.
    rewrite String.eqb_refl. simpl. lia.
  - rewrite <- !occurrences_solved by (done || by apply Forall_take).
    apply occurrences_take_le.
Qed.

Lemma seat_at_solved (g : Grid) rows cols r c d :
  shape rows cols g → r < rows → c < cols → Forall is_Some (mjoin g) →
  read g r c = VStr d →
  seat_at g cols r c
  = mkSeat (VStr d)
      (make_roll (VStr d) (count_in d (take (S (r * cols + c)) (mjoin g)))) ∧
  1 ≤ count_in d (take (S (r * cols + c)) (mjoin g)) ≤ count_grid d g.
Proof.
  intros Hsh Hr Hc Hall Hd. split.
  - unfold seat_at. rewrite Hd. simpl.
    by rewrite occurrences_solved by (by apply Forall_take).
  - rewrite count_grid_flat. apply count_in_take_bounds; [done|].
    destruct (flat_cell g rows cols r c Hsh Hr Hc) as (x & Hx & Hv).
    rewrite Hd in Hv. destruct x as [s|]; [|done]. by injection Hv as <-.
Qed.

Lemma seat_for_number (g : Grid) rows cols d n :
  shape rows cols g → Forall is_Some (mjoin g) →
  1 ≤ n ≤ count_grid d g →
  ∃ r c, r < rows ∧ c < cols ∧
         seat_at g cols r c = mkSeat (VStr d) (make_roll (VStr d) n).
Proof.
  intros Hsh Hall Hn. rewrite count_grid_flat in Hn.
  destruct (nth_holder d (mjoin g) n Hn) as (i & Hi & Hcount).
  pose proof Hsh as [Hl Hf]. pose proof Hi as Hi'.
  apply (join_lookup_Some_same_length cols) in Hi'
    as (r & row & c & Hrow & Hx & ->); [|done].
  assert (r < rows) as Hr by (rewrite <- Hl; by eapply lookup_lt_Some).
  assert (c < cols) as Hc.
  { rewrite <- (Forall_lookup_1 _ _ _ _ Hf Hrow). by eapply lookup_lt_Some. }
  exists r, c. split; [done|]. split; [done|].
  assert (read g r c = VStr d) as Hd.
  { apply read_VStr. unfold get2. by rewrite Hrow. }
  destruct (seat_at_solved g rows cols r c d Hsh Hr Hc Hall Hd) as [-> _].
  by rewrite Hcount.
Qed.

Lemma flat_seats (seats : list (list (option Seat))) rows cols x :
  shape rows cols seats →
  (x ∈ mjoin seats ↔ ∃ r c, r < rows ∧ c < cols ∧ get2 seats r c = Some x).
Proof.
  intros [Hl Hf]. rewrite list_elem_of_lookup. split.
  - intros [i Hi].
    apply (join_lookup_Some_same_length cols) in Hi
      as (r & row & c & Hrow & Hx & _); [|done].
    exists r, c. split; [rewrite <- Hl; by eapply lookup_lt_Some|]. split.
    + rewrite <- (Forall_lookup_1 _ _ _ _ Hf Hrow). by eapply lookup_lt_Some.
    + unfold get2. by rewrite Hrow.
  - intros (r & c & Hr & Hc & Hg). exists (r * cols + c).
    apply (join_lookup_Some_same_length' cols); [done|done|].
    unfold get2 in Hg. destruct (seats !! r) as [row|] eqn:E; [|discriminate Hg].
    exists row. done.
Qed.

(** No department bears an inherited name. *)
Lemma departments_plain d : d ∈ departments → inherited d = false.
Proof.
  unfold departments. intros Hd.
  repeat (apply elem_of_cons in Hd as [->|Hd]; [reflexivity|]).
  by apply elem_of_nil in Hd.
Qed.

Section SeatsAndStudents.
Context {RS : RandomSource} {EN : Engine}.

(** X13 (seats and students).  For counts over the five departments, the
    seats [assignRollsToGrid] gives to a grid returned by [tryArrange] are,
    up to their order, exactly the students of [generateStudentList]: every
    requested student is seated once and nobody else is. *)
Theorem seats_are_students rows cols counts attemptLimit g grid0 seats :
  NoDup (keys counts) →
  (∀ d, d ∈ keys counts → d ∈ departments) →
  tryArrange rows cols attemptLimit counts g = Some grid0 →
  assignRollsToGrid grid0 = Returned seats →
  mjoin seats ≡ₚ Some <$> generateStudentList counts.
Proof.
  intros Hkeys Hdeps Hrun Hassign.
  pose proof (fun d => final_count _ _ _ _ _ _ d Hkeys Hrun) as Hcount.
  apply tryArrange_sound in Hrun as (_ & cl & Hinv).
  pose proof (inv_shape _ _ _ _ _ _ Hinv) as Hsh.
  assert (∀ r c, r < rows → c < cols → ∃ d, read grid0 r c = VStr d) as Hsolved.
  { intros r c Hr Hc.
    destruct (inv_done _ _ _ _ _ _ Hinv r c Hr Hc) as [d Hd]; [apply not_elem_of_nil|].
    exists d. by apply read_VStr. }
  pose proof (solved_flat grid0 rows cols Hsh Hsolved) as Hall.
  assert (0 < rows) as Hrows.
  { destruct Hsh as [Hl _]. destruct grid0; [done|]. simpl in Hl. lia. }
  destruct (assignRollsToGrid_plain grid0 rows cols Hsh Hrows)
    as (seats' & Hret & Hshape & Hget).
  { intros r c Hr Hc.
    destruct (inv_done _ _ _ _ _ _ Hinv r c Hr Hc) as [d Hd]; [apply not_elem_of_nil|].
    rewrite (proj2 (read_VStr grid0 r c d) Hd).
    apply departments_plain, Hdeps. by eapply held_category. }
  rewrite Hassign in Hret. injection Hret as <-.
  apply NoDup_Permutation.
  - apply NoDup_alt. intros i j x Hi Hj. destruct Hshape as [Hl Hf].
    apply (join_lookup_Some_same_length cols) in Hi
      as (r1 & row1 & c1 & Hrow1 & Hx1 & ->); [|done].
    apply (join_lookup_Some_same_length cols) in Hj
      as (r2 & row2 & c2 & Hrow2 & Hx2 & ->); [|done].
    assert (r1 < rows) as Hr1 by (rewrite <- Hl; by eapply lookup_lt_Some).
    assert (r2 < rows) as Hr2 by (rewrite <- Hl; by eapply lookup_lt_Some).
    assert (c1 < cols) as Hc1.
    { rewrite <- (Forall_lookup_1 _ _ _ _ Hf Hrow1). by eapply lookup_lt_Some. }
    assert (c2 < cols) as Hc2.
    { rewrite <- (Forall_lookup_1 _ _ _ _ Hf Hrow2). by eapply lookup_lt_Some. }
    pose proof (Hget r1 c1 Hr1 Hc1) as H1. pose proof (Hget r2 c2 Hr2 Hc2) as H2.
    unfold get2 in H1, H2. rewrite Hrow1, Hx1 in H1. rewrite Hrow2, Hx2 in H2.
    destruct (decide ((r1, c1) = (r2, c2))) as [[= -> ->]|Hne]; [done|].
    exfalso. apply (seat_at_roll_distinct grid0 rows cols r1 c1 r2 c2); try done.
    congruence.
  - apply NoDup_fmap_2; [intros ? ? [= ?]; done|apply NoDup_students].
  - intros x. rewrite (flat_seats seats rows cols x Hshape), list_elem_of_fmap.
    split.
    + intros (r & c & Hr & Hc & Hx). rewrite Hget in Hx by done.
      injection Hx as <-. destruct (Hsolved r c Hr Hc) as [d Hd].
      destruct (seat_at_solved grid0 rows cols r c d Hsh Hr Hc Hall Hd)
        as [-> [Hn1 Hn2]].
      eexists. split; [done|]. apply elem_of_students.
      exists d. eexists. split; [|split; [done|split; [|done]]].
      * apply Hdeps. specialize (Hcount d).
        assert (0 < requested counts d)%Z as Hpos by lia. clear -Hpos.
        unfold requested in Hpos. induction counts as [|[k w] m IHm]; [simpl in *; lia|].
        simpl in Hpos. unfold keys. rewrite fmap_cons. simpl.
        destruct (String.eqb k d) eqn:E; [apply String.eqb_eq in E as ->; left|].
        right. by apply IHm.
      * specialize (Hcount d). lia.
    + intros (s & -> & (d & n & _ & Hn1 & Hn2 & ->)%elem_of_students).
      destruct (seat_for_number grid0 rows cols d n Hsh Hall) as (r & c & Hr & Hc & Hs).
      { specialize (Hcount d). lia. }
      exists r, c. split; [done|]. split; [done|]. rewrite Hget by done.
      by rewrite Hs.
Qed.

End SeatsAndStudents.

Lemma seats_are_students_witness :
  mjoin [[Some (mkSeat (VStr "CSE") "CSE-001"); Some (mkSeat (VStr "IT") "IT-001")]]
  ≡ₚ Some <$> generateStudentList [("CSE", 1%Z); ("IT", 1%Z)].
Proof.
  apply (seats_are_students (RS := steady) 1 2 [("CSE", 1%Z); ("IT", 1%Z)]
           default_attemptLimit 0 [[Some "CSE"; Some "IT"]]).
  - apply (bool_decide_unpack _). vm_compute. reflexivity.
  - intros d Hd. apply (bool_decide_unpack _).
    apply elem_of_cons in Hd as [->|Hd]; [vm_compute; reflexivity|].
    apply elem_of_cons in Hd as [->|Hd]; [vm_compute; reflexivity|].
    by apply elem_of_nil in Hd.
  - vm_compute. reflexivity.
  - vm_compute. reflexivity.
Defined.

(** ** [assignRollsToGrid] on any grid, under any names *)




Section AnyGrid.
Context {EN : Engine}.






End AnyGrid.

Example labels_ragged :
  assignRollsToGrid [[Some "A"; Some "B"]; [Some "A"]; [None; Some "A"; Some "B"]]
  = Returned
      [[Some (mkSeat (VStr "A") "A-001"); Some (mkSeat (VStr "B") "B-001")];
       [Some (mkSeat (VStr "A") "A-002"); Some (mkSeat VUndefined "undefined-001")];
       [Some (mkSeat VNull "null-001"); Some (mkSeat (VStr "A") "A-003")]].
Proof. reflexivity. Qed.

Example labels_inherited :
  assignRollsToGrid (EN := v8) [[Some "constructor"; Some "A"; Some "constructor"]]
  = Returned
      [[Some (mkSeat (VStr "constructor")
                "constructor-function Object() { [native code] }1");
        Some (mkSeat (VStr "A") "A-001");
        Some (mkSeat (VStr "constructor")
                "constructor-function Object() { [native code] }11")]].
Proof. vm_compute. reflexivity. Qed.

(** ** The attempt limit and the size of the grid; one category alone *)

Section Limits.
Context {RS : RandomSource}.
Variables (rows cols : nat) (attemptLimit : Z).

Lemma try_each_success_depth next r c K :
  (∀ st1, (attempts st1 <= attempts (next st1).2)%Z) →
  (∀ st1 st2, next st1 = (true, st2) → (attempts st1 + K <= attempts st2)%Z) →
  ∀ cand st st', try_each rows cols next r c cand st = (true, st') →
                 (attempts st + K <= attempts st')%Z.
Proof.
  intros Hmono Hnext cand. induction cand as [|d cand IH]; intros st st'; simpl;
    [done|].
  destruct (canPlace rows cols (grid st) r c d); [|apply IH].
  pose proof (Hmono (place st r c d)) as Hm.
  destruct (next (place st r c d)) as [[|] st1] eqn:E.
  - intros [= <-]. apply Hnext in E. simpl in E. lia.
  - intros Hrun. apply IH in Hrun. simpl in *. lia.
Qed.

(** A search that succeeds has called [dfs] once for every cell left and
    once more. *)
Lemma dfs_success_depth rest :
  ∀ st st', dfs rows cols attemptLimit rest st = (true, st') →
            (attempts st + 1 + Z.of_nat (length rest) <= attempts st')%Z.
Proof.
  induction rest as [|[r c] rest IH]; intros st st'; rewrite dfs_unfold; simpl.
  - destruct (attemptLimit <? attempts st + 1)%Z; [done|].
    intros [= <-]. simpl. lia.
  - destruct (attemptLimit <? attempts st + 1)%Z; [done|].
    intros Hrun.
    apply (try_each_success_depth _ r c (1 + Z.of_nat (length rest))) in Hrun.
    + simpl in Hrun. lia.
    + intros st1. pose proof (dfs_attempts_mono rows cols attemptLimit rest st1). lia.
    + intros st1 st2 H12. apply IH in H12. lia.
Qed.

(** X15 (limit and size).  A grid is only ever returned after
    [rows * cols + 1] calls of [dfs] at least, so [tryArrange] returns
    [null] whenever [attemptLimit] does not exceed the number of cells,
    however easy the request. *)
Theorem tryArrange_needs_budget countsMap g grid0 :
  tryArrange rows cols attemptLimit countsMap g = Some grid0 →
  (Z.of_nat (rows * cols) < attemptLimit)%Z ∧
  (Z.of_nat (rows * cols) + 1
   <= attempts_made (tryArrange_run rows cols attemptLimit countsMap g))%Z.
Proof.
  unfold tryArrange. intros Hret.
  destruct (tryArrange_run rows cols attemptLimit countsMap g) as [|[|] st] eqn:Hrun;
    [done| |done].
  apply run_outcome in Hrun as (_ & g1 & Hdfs).
  pose proof (dfs_success_depth _ _ _ Hdfs) as Hdepth.
  pose proof (dfs_within rows cols attemptLimit _ _ _ Hdfs) as Hle.
  rewrite length_all_cells in Hdepth. simpl in *. lia.
Qed.

(** X16 (one category alone).  When a single category has a positive count
    and the grid has at least two cells, [tryArrange] returns [null]: two
    cells that share an edge would have to hold that category. *)
Theorem tryArrange_single_category countsMap g d :
  NoDup (keys countsMap) →
  (∀ d', (0 < requested countsMap d')%Z → d' = d) →
  2 ≤ rows * cols →
  tryArrange rows cols attemptLimit countsMap g = None.
Proof.
  intros Hkeys Hone Hsize.
  destruct (tryArrange rows cols attemptLimit countsMap g) as [grid0|] eqn:Hrun;
    [exfalso|done].
  pose proof (fun d' => final_count _ _ _ _ _ _ d' Hkeys Hrun) as Hcount.
  apply tryArrange_sound in Hrun as (_ & cl & Hinv).
  assert (∀ r c, r < rows → c < cols → get2 grid0 r c = Some (Some d)) as Hall.
  { intros r c Hr Hc.
    destruct (inv_done _ _ _ _ _ _ Hinv r c Hr Hc) as [d' Hd']; [apply not_elem_of_nil|].
    pose proof (count_grid_pos _ _ _ _ Hd'). specialize (Hcount d').
    rewrite (Hone d') in Hd' by lia. done. }
  assert (0 < rows) as Hr0 by (destruct rows; [simpl in Hsize; lia|lia]).
  assert (0 < cols) as Hc0
    by (destruct cols; [rewrite Nat.mul_0_r in Hsize; lia|lia]).
  destruct (decide (2 ≤ cols)) as [Hc|Hc].
  - apply (inv_adj _ _ _ _ _ _ Hinv (0, 0) (0, 1) d).
    + unfold adjacent. simpl. lia.
    + by apply Hall.
    + simpl. apply Hall; lia.
  - assert (cols = 1) as Hc1 by lia. rewrite Hc1, Nat.mul_1_r in Hsize.
    apply (inv_adj _ _ _ _ _ _ Hinv (0, 0) (1, 0) d).
    + unfold adjacent. simpl. lia.
    + by apply Hall.
    + simpl. apply Hall; lia.
Qed.

End Limits.

Lemma tryArrange_needs_budget_witness :
  (Z.of_nat (1 * 2) < default_attemptLimit)%Z ∧
  (Z.of_nat (1 * 2) + 1
   <= attempts_made (tryArrange_run (RS := steady) 1 2 default_attemptLimit
                       [("A", 1%Z); ("B", 1%Z)] 0%nat))%Z.
Proof.
  apply (tryArrange_needs_budget (RS := steady) 1 2 default_attemptLimit
           [("A", 1%Z); ("B", 1%Z)] 0 [[Some "A"; Some "B"]]).
  vm_compute. reflexivity.
Defined.

Lemma tryArrange_single_category_witness :
  tryArrange (RS := steady) 1 2 default_attemptLimit [("A", 2%Z); ("B", 0%Z)] 0
  = None.
Proof.
  apply (tryArrange_single_category (RS := steady) 1 2 default_attemptLimit
           [("A", 2%Z); ("B", 0%Z)] 0 "A").
  - apply (bool_decide_unpack _). vm_compute. reflexivity.
  - intros d' Hd'. unfold requested in Hd'. cbn [lookup_count] in Hd'.
    destruct (String.eqb "A" d') eqn:E; [by apply String.eqb_eq in E|].
    destruct (String.eqb "B" d'); vm_compute in Hd'; discriminate.
  - simpl. lia.
Defined.

(** ** [attemptAndRender] from the fields of the form *)

Lemma foldl_num_add_NaN (l : list Num) : foldl num_add NaN l = NaN.
Proof. induction l as [|x l IH]; [done|]. exact IH. Qed.

(** A sum that is a number is a sum of numbers. *)
Lemma totalCount_read_whole counts s :
  totalCount_read counts = Int s →
  ∃ m, whole counts = Some m ∧ totalCount m = s.
Proof.
  unfold totalCount_read, totalCount. generalize 0%Z as a.
  induction counts as [|[k [|z]] counts IH]; intros a H.
  - exists []. split; [done|]. by injection H.
  - rewrite fmap_cons in H. cbn [foldl snd num_add] in H.
    by rewrite foldl_num_add_NaN in H.
  - rewrite fmap_cons in H. cbn [foldl snd num_add] in H.
    destruct (IH _ H) as (m & Hm & Hs). exists ((k, z) :: m).
    cbn [whole]. rewrite Hm. split; [done|]. by rewrite fmap_cons.
Qed.

Lemma whole_total counts m :
  whole counts = Some m → totalCount_read counts = Int (totalCount m).
Proof.
  unfold totalCount_read, totalCount. generalize 0%Z as a. revert m.
  induction counts as [|[k [|z]] counts IH]; intros m a H; cbn [whole] in H.
  - by injection H as <-.
  - done.
  - destruct (whole counts) as [m'|]; [|done]. injection H as <-.
    rewrite !fmap_cons. cbn [foldl snd num_add]. by apply IH.
Qed.

(** The counts [readCounts] builds, when whole, are counts of the
    departments, and none is negative. *)
Lemma whole_clamped (h : string → Num) (l : list string) m :
  whole ((fun d => (d, max_zero (h d))) <$> l) = Some m →
  keys m = l ∧ Forall (fun kv => (0 <= kv.2)%Z) m.
Proof.
  revert m. induction l as [|d l IH]; intros m H.
  - injection H as <-. done.
  - rewrite fmap_cons in H. cbn [whole] in H.
    destruct (h d) as [|z]; [done|]. cbn [max_zero] in H.
    destruct (whole _) as [m'|]; [|done]. injection H as <-.
    destruct (IH m' eq_refl) as [Hk Hf]. split.
    + unfold keys in *. rewrite fmap_cons. by rewrite Hk.
    + constructor; [simpl; lia|done].
Qed.

Lemma NoDup_departments : NoDup departments.
Proof. apply (bool_decide_unpack _). vm_compute. reflexivity. Qed.

Section FormFacts.
Context {RS : RandomSource} {EN : Engine}.

(** On numbers that are not negative, [tryArrange] is the function studied
    above. *)
Lemma tryArrange_run_int_nat rows cols attemptLimit countsMap g :
  tryArrange_run_int (Z.of_nat rows) (Z.of_nat cols) attemptLimit countsMap g
  = tryArrange_run rows cols attemptLimit countsMap g.
Proof.
  unfold tryArrange_run_int, tryArrange_run.
  rewrite !Nat2Z.id, <- Nat2Z.inj_mul.
  destruct (Nat.eqb_spec (length (make_pool countsMap)) (rows * cols)) as [->|Hne].
  - by rewrite Z.eqb_refl.
  - destruct (Z.eqb_spec (Z.of_nat (length (make_pool countsMap)))
                (Z.of_nat (rows * cols))); [lia|done].
Qed.

(** With no row to fill, the search succeeds at once, on the empty grid. *)
Lemma tryArrange_run_int_no_rows rows cols attemptLimit countsMap g :
  (rows <= 0)%Z → (1 <= attemptLimit)%Z →
  Z.of_nat (length (make_pool countsMap)) = (rows * cols)%Z →
  returned (tryArrange_run_int rows cols attemptLimit countsMap g) = Some [].
Proof.
  intros Hrows Hlimit Hlen. unfold tryArrange_run_int.
  rewrite Hlen, Z.eqb_refl. cbn [negb].
  destruct (shuffle _ g) as [pool' g1].
  replace (Z.to_nat rows) with 0 by lia.
  rewrite dfs_unfold. cbn.
  destruct (Z.ltb_spec attemptLimit (0 + 1)); [lia|done].
Qed.

(** What [tryArrange] can return: the empty grid when [rows] is not
    positive; otherwise [cols] is not negative either. *)
Lemma tryArrange_run_int_returned rows cols attemptLimit countsMap g grid0 :
  returned (tryArrange_run_int rows cols attemptLimit countsMap g) = Some grid0 →
  ((rows <= 0)%Z ∧ grid0 = []) ∨
  (∃ r c : nat, rows = Z.of_nat r ∧ cols = Z.of_nat c ∧ 0 < r ∧
                tryArrange r c attemptLimit countsMap g = Some grid0).
Proof.
  intros H. destruct (Z_le_gt_dec rows 0) as [Hle|Hgt].
  - left. split; [done|]. revert H. unfold tryArrange_run_int.
    destruct (negb _); [done|]. destruct (shuffle _ g) as [pool' g1].
    replace (Z.to_nat rows) with 0 by lia.
    rewrite dfs_unfold. cbn.
    destruct (attemptLimit <? 0 + 1)%Z; cbn; congruence.
  - right. destruct (Z_lt_ge_dec cols 0) as [Hneg|Hpos].
    + exfalso. revert H. unfold tryArrange_run_int.
      destruct (Z.eqb_spec (Z.of_nat (length (make_pool countsMap)))
                  (rows * cols)) as [Heq|]; [nia|done].
    + exists (Z.to_nat rows), (Z.to_nat cols).
      split; [lia|]. split; [lia|]. split; [lia|].
      unfold tryArrange. rewrite <- tryArrange_run_int_nat.
      by rewrite !Z2Nat.id by lia.
Qed.

Lemma retry_Some n call g grid0 :
  (retry n call g).1 = Some grid0 → ∃ g0, returned (call g0) = Some grid0.
Proof.
  revert g. induction n as [|n IH]; intros g; cbn [retry]; [done|].
  destruct (returned (call g)) as [seating|] eqn:E; [|apply IH].
  cbn. intros [= <-]. by exists g.
Qed.

Lemma retry_first n call g grid0 :
  returned (call g) = Some grid0 → (retry (S n) call g).1 = Some grid0.
Proof. intros H. cbn [retry]. by rewrite H. Qed.

(** The loop of [attemptAndRender], on numbers that are not negative. *)
Lemma retry_try_several n rows cols counts g :
  retry n (tryArrange_run_int (Z.of_nat rows) (Z.of_nat cols) 30000 counts) g
  = try_several n rows cols counts g.
Proof.
  revert g. induction n as [|n IH]; intros g; cbn [retry try_several]; [done|].
  rewrite tryArrange_run_int_nat.
  destruct (returned _); [done|]. apply IH.
Qed.

(** What [attemptAndRender] does once [sum === total]. *)
Lemma form_past_check f g :
  (∀ total sum, (attemptAndRender_form f g).1 ≠ FormMismatch total sum) →
  ∃ rows cols counts,
    rows_field f = Int rows ∧ cols_field f = Int cols ∧
    whole (readCounts f).2 = Some counts ∧
    keys counts = departments ∧
    Forall (fun kv => (0 <= kv.2)%Z) counts ∧
    totalCount counts = (rows * cols)%Z ∧
    attemptAndRender_form f g
    = match retry 5 (tryArrange_run_int rows cols 30000 counts) g with
      | (None, g') => (FormNotPossible, g')
      | (Some seating, g') =>
          match assignRollsToGrid seating with
          | Returned seats => (FormRendered seats, g')
          | Threw => (FormUncaught, g')
          end
      end.
Proof.
  unfold attemptAndRender_form, readCounts. cbn [snd].
  destruct (rows_field f) as [|rows], (cols_field f) as [|cols],
    (totalCount_read _) as [|sum] eqn:Es; cbn [num_mul strict_ne];
    try (intros H; exfalso; eapply H; reflexivity).
  destruct (Z.eqb_spec sum (rows * cols)) as [->|]; cbn [negb];
    [|intros H; exfalso; eapply H; reflexivity].
  destruct (totalCount_read_whole _ _ Es) as (m & Hm & Hsum).
  rewrite Hm. intros _. destruct (whole_clamped _ _ _ Hm) as [Hk Hf].
  by exists rows, cols, m.
Qed.

(** X10 (no rows).  [attemptAndRender] ends in an uncaught exception
    exactly when every field is read as a whole number, the counts, negative
    ones taken as 0, sum to [rows * cols], and [rows] is 0 or negative:
    [tryArrange] then returns an empty grid, which the retry loop takes for
    a success and of which [assignRollsToGrid] reads [grid[0].length].  So
    it does for 0 rows and no student, and for -1 by -1 and one student;
    with a positive number of rows it never does. *)
Theorem attemptAndRender_form_uncaught f g :
  (attemptAndRender_form f g).1 = FormUncaught ↔
  ∃ rows cols,
    rows_field f = Int rows ∧ cols_field f = Int cols ∧ (rows <= 0)%Z ∧
    totalCount_read (readCounts f).2 = Int (rows * cols).
Proof.
  split.
  - intros H. destruct (form_past_check f g)
      as (rows & cols & counts & Hr & Hc & Hw & _ & _ & Hsum & Heq).
    { intros total sum. by rewrite H. }
    rewrite Heq in H. exists rows, cols. split; [done|]. split; [done|].
    split; [|by rewrite (whole_total _ _ Hw), Hsum].
    destruct (retry 5 _ g) as [[seating|] g'] eqn:Et; [|done].
    destruct seating as [|row0 seating]; [|done].
    destruct (retry_Some 5 (tryArrange_run_int rows cols 30000 counts) g [])
      as [g0 Hrun]; [by rewrite Et|].
    apply tryArrange_run_int_returned in Hrun
      as [[Hle _]|(r & c & -> & _ & Hpos & Hrun)]; [done|].
    apply tryArrange_sound in Hrun as (_ & cl & Hinv).
    destruct (inv_shape _ _ _ _ _ _ Hinv) as [Hl _]. simpl in Hl. lia.
  - intros (rows & cols & Hr & Hc & Hle & Hsum).
    destruct (totalCount_read_whole _ _ Hsum) as (m & Hm & Htot).
    unfold attemptAndRender_form. revert Hsum Hm. unfold readCounts. cbn [snd].
    rewrite Hr, Hc. intros -> Hm. cbn [num_mul strict_ne].
    rewrite Z.eqb_refl, Hm. cbn [negb].
    destruct (whole_clamped _ _ _ Hm) as [Hk Hf].
    assert (returned (tryArrange_run_int rows cols 30000 m g) = Some []) as Hrun.
    { apply tryArrange_run_int_no_rows; [done|lia|].
      rewrite length_make_pool by (rewrite Hk; apply NoDup_departments).
      by rewrite sum_positive_totalCount. }
    pose proof (retry_first 4 _ g [] Hrun) as Hfirst.
    destruct (retry 5 _ g) as [[seating|] g']; cbn [fst] in Hfirst; [|done].
    injection Hfirst as ->. done.
Qed.

(** X17 (what is rendered, whatever the form holds).  Whenever
    [attemptAndRender] renders a seating, [rows] was read as a positive
    whole number and [cols] as a whole number that is not negative, the
    counts, negative ones taken as 0, sum to [rows * cols], the seating has
    [rows] rows of [cols] seats, every seat carries one of the five
    departments and a roll made of it and a number from 1 on, seats that
    share an edge are of different departments, and no two seats have the
    same roll. *)
Theorem form_rendered_valid f g seats :
  (attemptAndRender_form f g).1 = FormRendered seats →
  ∃ rows cols : nat,
    rows_field f = Int (Z.of_nat rows) ∧ cols_field f = Int (Z.of_nat cols) ∧
    0 < rows ∧
    totalCount_read (readCounts f).2 = Int (Z.of_nat (rows * cols)) ∧
    shape rows cols seats ∧
    (∀ r c, r < rows → c < cols →
       ∃ d n, d ∈ departments ∧ 1 ≤ n ∧
              get2 seats r c
              = Some (Some (mkSeat (VStr d) (make_roll (VStr d) n)))) ∧
    (∀ r c r' c' s s',
       adjacent (r, c) (r', c') →
       get2 seats r c = Some (Some s) → get2 seats r' c' = Some (Some s') →
       dept s ≠ dept s') ∧
    (∀ r1 c1 r2 c2 s1 s2,
       get2 seats r1 c1 = Some (Some s1) → get2 seats r2 c2 = Some (Some s2) →
       (r1, c1) ≠ (r2, c2) → roll s1 ≠ roll s2).
Proof.
  intros H. destruct (form_past_check f g)
    as (rows & cols & counts & Hr & Hc & Hw & Hk & _ & Hsum & Heq).
  { intros total sum. by rewrite H. }
  rewrite Heq in H.
  destruct (retry 5 _ g) as [[seating|] g'] eqn:Et; [|done].
  destruct (assignRollsToGrid seating) as [seats'|] eqn:Ea; [|done].
  cbn [fst] in H. injection H as ->.
  destruct (retry_Some 5 (tryArrange_run_int rows cols 30000 counts) g seating)
    as [g0 Hrun]; [by rewrite Et|].
  apply tryArrange_run_int_returned in Hrun
    as [[_ ->]|(r & c & -> & -> & Hpos & Hrun)]; [done|].
  destruct (arranged_seats r c counts 30000 g0 seating seats)
    as (_ & Hshape & Hcells & Hadj & Hrolls); [|done|done|].
  { intros d Hd. apply departments_plain. by rewrite <- Hk. }
  exists r, c. split; [done|]. split; [done|]. split; [done|].
  split; [rewrite (whole_total _ _ Hw), Hsum; f_equal; lia|].
  split; [done|]. split; [|done].
  intros r0 c0 Hr0 Hc0. destruct (Hcells r0 c0 Hr0 Hc0) as (d & n & Hd & Hn & Hs).
  exists d, n. by rewrite <- Hk.
Qed.

End FormFacts.

Lemma form_rendered_valid_witness :
  ∃ rows cols : nat,
    Int 1 = Int (Z.of_nat rows) ∧ Int 2 = Int (Z.of_nat cols) ∧ 0 < rows.
Proof.
  destruct (form_rendered_valid (RS := steady) (EN := v8)
              (mkForm (Int 1) (Int 2)
                 (fun d => if String.eqb d "CSE" then Int 1
                           else if String.eqb d "IT" then Int 1 else Int 0))
              0
              [[Some (mkSeat (VStr "CSE") "CSE-001");
                Some (mkSeat (VStr "IT") "IT-001")]])
    as (rows & cols & Hr & Hc & Hrows & _).
  - vm_compute. reflexivity.
  - exists rows, cols. exact (conj Hr (conj Hc Hrows)).
Defined.

(** A hall of -1 by -1 seats for one student: the sums agree, [tryArrange]
    returns an empty grid and [assignRollsToGrid] throws.  No rows and a
    field [cols] left empty: the mismatch alert, for [NaN]. *)
Example form_negative_hall :
  (attemptAndRender_form (RS := steady)
     (mkForm (Int (-1)) (Int (-1))
        (fun d => if String.eqb d "CSE" then Int 1 else Int 0)) 0).1
  = FormUncaught.
Proof. vm_compute. reflexivity. Qed.

Example form_empty_field :
  (attemptAndRender_form (RS := steady)
     (mkForm (Int 0) NaN (fun d => Int 0)) 0).1
  = FormMismatch NaN (Int 0).
Proof. vm_compute. reflexivity. Qed.

Example form_negative_count :
  (attemptAndRender_form (RS := steady)
     (mkForm (Int 1) (Int 2)
        (fun d => if String.eqb d "CSE" then Int 1
                  else if String.eqb d "IT" then Int 1 else Int (-3))) 0).1
  = FormRendered [[Some (mkSeat (VStr "CSE") "CSE-001");
                   Some (mkSeat (VStr "IT") "IT-001")]].
Proof. vm_compute. reflexivity. Qed.
